(** * Ear training: sequence generator, scoring and session state

    A shallow embedding of [backend.py] and [EarTraining.py]: the static
    tables, [validate_user_input], and the methods of the class
    [EarTrainingGame].

    Python values are modelled as follows.
    - [int] is [Z]; a [list] of ints is [list Z]; [str] is [string], read as
      a sequence of code points below 256.
    - A [dict] with string keys is a [gmap string Z]; subscripting a missing
      key raises [KeyError].
    - An exception is a value of [Exn]; a call either returns, raises, or
      (for the [while] loops only) runs out of fuel.
    - The module-level generator [random] is a stream of raw draws that the
      calls [random.choice], [random.randint] and [random.random] consume
      one after the other.
    - [elapsed_time] is a binary64 float. *)

From Stdlib Require Import ZArith NArith Lia String Ascii Floats.
From Stdlib Require Import DecimalString DecimalPos DecimalZ.
From stdpp Require Import gmap strings list.

Local Open Scope string_scope.
Local Open Scope list_scope.
Local Open Scope Z_scope.

(** ** Outcomes of a call *)

Inductive Exn : Type :=
  | KeyError
  | IndexError
  | ValueError
  | OverflowError
  | OSError.

Inductive Outcome (A : Type) : Type :=
  | Ok (a : A)
  | Raise (e : Exn)
  | OutOfFuel.

Arguments Ok {A} a.
Arguments Raise {A} e.
Arguments OutOfFuel {A}.

Definition obind {A B : Type} (o : Outcome A) (k : A → Outcome B) : Outcome B :=
  match o with
  | Ok a => k a
  | Raise e => Raise e
  | OutOfFuel => OutOfFuel
  end.

(** ** Python built-ins used by the program *)

Module Py.

(** [d[k]] on a dict. *)
Definition getitem (d : gmap string Z) (k : string) : Outcome Z :=
  match d !! k with
  | Some v => Ok v
  | None => Raise KeyError
  end.

(** [[f(x) for x in xs]] where [f] may raise: stops at the first raise. *)
Fixpoint comprehension {A B : Type} (f : A → Outcome B) (xs : list A)
  : Outcome (list B) :=
  match xs with
  | [] => Ok []
  | x :: xs' =>
      obind (f x) (λ y, obind (comprehension f xs') (λ ys, Ok (y :: ys)))
  end.

(** [c.isspace()] for a code point below 256: TAB..CR, FS..US, SPACE,
    NEL and NBSP. *)
Definition isspace (c : ascii) : bool :=
  let n := nat_of_ascii c in
  ((9 <=? n)%nat && (n <=? 13)%nat)
  || ((28 <=? n)%nat && (n <=? 32)%nat)
  || (n =? 133)%nat || (n =? 160)%nat.

(** [s.split()]: the maximal runs of non-whitespace characters, in order.
    [word] is the run being read. *)
Fixpoint split_from (word : string) (s : string) : list string :=
  match s with
  | EmptyString => if decide (word = "") then [] else [word]
  | String c s' =>
      if isspace c
      then (if decide (word = "") then split_from "" s'
            else word :: split_from "" s')
      else split_from (word +:+ String c "") s'
  end.

Definition split (s : string) : list string := split_from "" s.

(** [s.split(sep)] for a separator of one character: the pieces between
    the occurrences of [sep], the empty ones included. [word] is the piece
    being read. *)
Fixpoint split_on_from (sep : ascii) (word : string) (s : string) : list string :=
  match s with
  | EmptyString => [word]
  | String c s' =>
      if Ascii.eqb c sep then word :: split_on_from sep "" s'
      else split_on_from sep (word +:+ String c "") s'
  end.

Definition split_on (sep : ascii) (s : string) : list string :=
  split_on_from sep "" s.

(** [c in s] for a character [c]. *)
Fixpoint contains (c : ascii) (s : string) : bool :=
  match s with
  | EmptyString => false
  | String c' s' => Ascii.eqb c' c || contains c s'
  end.

(** [str(n)] for an int: decimal digits, with a leading minus sign for a
    negative number. *)
Definition str (n : Z) : string := NilZero.string_of_int (Z.to_int n).

(** [sep.join(parts)]. *)
Definition join (sep : string) (parts : list string) : string :=
  String.concat sep parts.

(** [range(a, b)] as a list. *)
Definition range (a b : Z) : list Z := seqZ a (b - a).

(** [len(xs)]. *)
Definition len {A : Type} (xs : list A) : Z := Z.of_nat (length xs).

(** [xs[-1]]. *)
Definition getlast {A : Type} (xs : list A) : Outcome A :=
  match last xs with
  | Some x => Ok x
  | None => Raise IndexError
  end.

End Py.

(** ** The random source

    [src n] is the [n]-th raw draw; a computation reads the draw at the
    current position and moves one position on. Every sequence of answers
    the library can give is the behaviour of some stream. *)

Definition RandomSource : Type := nat → N.

Definition Rand (A : Type) : Type := RandomSource → nat → Outcome (A * nat).

Definition ret {A : Type} (a : A) : Rand A := λ _ pos, Ok (a, pos).

Definition bind {A B : Type} (c : Rand A) (k : A → Rand B) : Rand B :=
  λ src pos,
    match c src pos with
    | Ok (a, pos') => k a src pos'
    | Raise e => Raise e
    | OutOfFuel => OutOfFuel
    end.

Definition lift {A : Type} (o : Outcome A) : Rand A :=
  λ _ pos,
    match o with
    | Ok a => Ok (a, pos)
    | Raise e => Raise e
    | OutOfFuel => OutOfFuel
    end.

Definition out_of_fuel {A : Type} : Rand A := λ _ _, OutOfFuel.

Declare Scope rand_scope.
Delimit Scope rand_scope with rand.
Notation "x <- c ;; k" := (bind c (λ x, k))
  (at level 100, c at next level, right associativity) : rand_scope.
Local Open Scope rand_scope.

Module random.

(** [random.choice(seq)]: [IndexError] on an empty sequence. *)
Definition choice {A : Type} (seq : list A) : Rand A :=
  λ src pos,
    match seq with
    | [] => Raise IndexError
    | _ :: _ =>
        match seq !! N.to_nat (src pos mod N.of_nat (length seq))%N with
        | Some x => Ok (x, S pos)
        | None => Raise IndexError
        end
    end.

(** [random.randint(a, b)]: an int in [[a, b]]; [ValueError] when the
    range is empty. *)
Definition randint (a b : Z) : Rand Z :=
  λ src pos,
    if b <? a then Raise ValueError
    else Ok (a + Z.of_N (src pos) mod (b - a + 1), S pos).

(** [random.random()] returns the double [k / 2^53] for some
    [0 <= k < 2^53]; the model returns the numerator [k]. *)
Definition random : Rand N :=
  λ src pos, Ok ((src pos mod 2 ^ 53)%N, S pos).

(** [x < 0.75] for [x = k / 2^53]: both sides are exact doubles, so the
    comparison is [k < 3 * 2^51]. *)
Definition lt_0_75 (k : N) : bool := (k <? 3 * 2 ^ 51)%N.

End random.

(** ** Static tables *)

Definition solfege_to_midi : gmap string Z :=
  list_to_map
    [("do", 60); ("ra", 61); ("re", 62); ("me", 63); ("mi", 64);
     ("fa", 65); ("fi", 66); ("sol", 67); ("le", 68); ("la", 69);
     ("te", 70); ("ti", 71)].

(** The pairs of key names that spell the same pitch class. *)
Definition enharmonic_pairs : list (string * string) :=
  [("C#", "Db"); ("D#", "Eb"); ("F#", "Gb"); ("G#", "Ab"); ("A#", "Bb")].

(** ** Scoring (the same text in both files) *)

(** [pre_octave_key_list[i] == user_input_list[i]] for [i] in
    [range(len(pre_octave_key_list))]: the index runs over the first list
    and the second list is subscripted with it. *)
Fixpoint detailed_match_from (pre_octave_key_list user_input_list : list Z)
  (i : nat) (n : nat) : Outcome (list Z) :=
  match n with
  | O => Ok []
  | S n' =>
      match pre_octave_key_list !! i, user_input_list !! i with
      | Some a, Some b =>
          obind (detailed_match_from pre_octave_key_list user_input_list (S i) n')
                (λ rest, Ok ((if decide (a = b) then 1 else 0) :: rest))
      | _, _ => Raise IndexError
      end
  end.

Definition validate_user_input (pre_octave_key_list user_input_list : list Z)
  : Outcome (Z * list Z) :=
  let overall_match :=
    if decide (pre_octave_key_list = user_input_list) then 1 else 0 in
  obind (detailed_match_from pre_octave_key_list user_input_list 0
           (length pre_octave_key_list))
        (λ detailed_match, Ok (overall_match, detailed_match)).

(** ** The sequence generator *)

Section Generator.

(** The key table of the file at hand. *)
Variable key_to_adjustment : gmap string Z.

(** The loop [while len(midi_sequence) < number_of_notes]. *)
Fixpoint extend_sequence (fuel : nat) (number_of_notes : Z)
  (selected_midi_notes midi_sequence : list Z) : Rand (list Z) :=
  if Py.len midi_sequence <? number_of_notes then
    match fuel with
    | O => out_of_fuel
    | S fuel' =>
        prev <- lift (Py.getlast midi_sequence) ;;
        next_note <- random.choice
                       (filter (λ note, note ≠ prev) selected_midi_notes) ;;
        extend_sequence fuel' number_of_notes selected_midi_notes
          (midi_sequence ++ [next_note])
    end
  else ret midi_sequence.

(** The candidates [[octave for octave in range(1, octave_range+1)
    if octave != octave_adjustments[-1]]]. *)
Definition other_octaves (octave_range prev : Z) : list Z :=
  filter (λ octave, octave ≠ prev) (Py.range 1 (octave_range + 1)).

(** One pass of the body of [for _ in range(1, number_of_notes)]. *)
Definition next_octave_step (octave_range : Z) (octave_adjustments : list Z)
  : Rand (list Z) :=
  prev <- lift (Py.getlast octave_adjustments) ;;
  next_octave <-
    (if decide (prev = 1) then
       x <- random.random ;;
       if random.lt_0_75 x then ret 1
       else random.choice (other_octaves octave_range prev)
     else random.choice (other_octaves octave_range prev)) ;;
  ret (octave_adjustments ++ [next_octave]).

(** The loop [for _ in range(1, number_of_notes)], over the list of values
    the range yields. *)
Fixpoint octave_walk (iterations : list Z) (octave_range : Z)
  (octave_adjustments : list Z) : Rand (list Z) :=
  match iterations with
  | [] => ret octave_adjustments
  | _ :: rest =>
      octave_adjustments' <- next_octave_step octave_range octave_adjustments ;;
      octave_walk rest octave_range octave_adjustments'
  end.

(** [generate_test_sequence] up to the list [adjusted_notes]: returns
    [(adjusted_notes, pre_octave_key_list)]. *)
Definition generate_notes (fuel : nat) (number_of_notes : Z)
  (solfege_syllables : string) (octave_range : Z) (key : string)
  : Rand (list Z * list Z) :=
  let solfege_list := Py.split solfege_syllables in
  selected_midi_notes <-
    lift (Py.comprehension (Py.getitem solfege_to_midi) solfege_list) ;;
  first_note <- random.choice selected_midi_notes ;;
  midi_sequence <-
    extend_sequence fuel number_of_notes selected_midi_notes [first_note] ;;
  let pre_octave_key_list := midi_sequence in
  first_octave <- random.randint 1 octave_range ;;
  octave_adjustments <-
    octave_walk (Py.range 1 number_of_notes) octave_range [first_octave] ;;
  let notes_plus_octave :=
    (λ '(note, octave), note + (octave - 1) * 12)
      <$> zip midi_sequence octave_adjustments in
  key_adjustment <- lift (Py.getitem key_to_adjustment key) ;;
  let adjusted_notes := (λ note, note + key_adjustment) <$> notes_plus_octave in
  ret (adjusted_notes, pre_octave_key_list).

(** The method itself: the adjusted notes are returned as one string,
    written in decimal and joined with underscores. *)
Definition generate_test_sequence (fuel : nat) (number_of_notes : Z)
  (solfege_syllables : string) (octave_range : Z) (key : string)
  : Rand (string * list Z) :=
  notes <-
    generate_notes fuel number_of_notes solfege_syllables octave_range key ;;
  let '(adjusted_notes, pre_octave_key_list) := notes in
  let midi_test_notes := Py.join "_" (Py.str <$> adjusted_notes) in
  ret (midi_test_notes, pre_octave_key_list).

(** The chords of the reference cadence. *)
Record Cadence : Type := {
  dominant : Z * Z * Z;
  tonic : Z * Z * Z
}.

Definition generate_reference_cadence (key : string) : Outcome Cadence :=
  obind (Py.getitem solfege_to_midi "do") (λ do_note,
  obind (Py.getitem key_to_adjustment key) (λ adjustment,
    let key_note := do_note + adjustment in
    Ok {| dominant := (key_note - 5, key_note - 1, key_note + 2);
          tonic := (key_note, key_note + 4, key_note + 7) |})).

End Generator.

Arguments dominant _ : assert.
Arguments tonic _ : assert.

(** ** The two files: same generator, different key tables *)

Module backend.

(** The table of [backend.py]; its sixteenth key is spelled ['A3']. *)
Definition key_to_adjustment : gmap string Z :=
  list_to_map
    [("C", 0); ("C#", 1); ("Db", 1); ("D", 2); ("D#", 2); ("Eb", 3);
     ("E", 4); ("F", 5); ("F#", 6); ("Gb", -6); ("G", -5); ("G#", -4);
     ("Ab", -4); ("A", -3); ("A3", -2); ("Bb", -2); ("B", -1)].

Definition generate_test_sequence := generate_test_sequence key_to_adjustment.
Definition generate_reference_cadence := generate_reference_cadence key_to_adjustment.

End backend.

Module EarTraining.

(** The table of [EarTraining.py]. *)
Definition key_to_adjustment : gmap string Z :=
  list_to_map
    [("C", 0); ("C#", 1); ("Db", 1); ("D", 2); ("D#", 2); ("Eb", 3);
     ("E", 4); ("F", 5); ("F#", 6); ("Gb", -6); ("G", -5); ("G#", -4);
     ("Ab", -4); ("A", -3); ("A#", -2); ("Bb", -2); ("B", -1)].

Definition generate_test_sequence := generate_test_sequence key_to_adjustment.
Definition generate_reference_cadence := generate_reference_cadence key_to_adjustment.

End EarTraining.

(** Two keys of a table name the same pitch class. *)
Definition same_pitch_class (table : gmap string Z) (k1 k2 : string) : Prop :=
  ∃ a1 a2, table !! k1 = Some a1 ∧ table !! k2 = Some a2 ∧ a1 mod 12 = a2 mod 12.

(** The per-note comparison of two notes. *)
Definition note_match (a b : Z) : Z := if decide (a = b) then 1 else 0.

(** A note of the display sequence: the base pitch, moved up by the octave
    band and transposed by the key. *)
Definition display_note (key_adjustment note octave : Z) : Z :=
  note + (octave - 1) * 12 + key_adjustment.

(** The number of distinct pitch values in a list of notes. *)
Definition distinct_pitches (notes : list Z) : nat := length (remove_dups notes).

(** No two neighbours of a sequence are equal. *)
Fixpoint no_immediate_repeat (xs : list Z) : Prop :=
  match xs with
  | x :: ((y :: _) as rest) => x ≠ y ∧ no_immediate_repeat rest
  | _ => True
  end.

(** ** Session state: the clock and the guess buffer

    The fields [lock] and [thread] are left out: each method is modelled as
    the sequence of its own steps. *)

Record EarTrainingGame : Type := {
  user_guesses : list string;
  elapsed_time : float;
  running : bool
}.

(** What the program prints: the state line of [notify_gui], with the two
    values it formats, or the line of the [except] branch of the clock. *)
Inductive Line : Type :=
  | StateLine (elapsed : float) (guesses : list string)
  | ErrorLine (e : Exn).

(** Standard output. [attempts] counts the calls to [print] so far and
    [fault n] is the exception, if any, that the [n]-th call raises (a closed
    or broken stream). *)
Record Console : Type := {
  shown : list Line;
  attempts : nat;
  fault : nat → option Exn
}.

Definition print (line : Line) (c : Console) : Outcome unit * Console :=
  match fault c (attempts c) with
  | Some e =>
      (Raise e,
       {| shown := shown c; attempts := S (attempts c); fault := fault c |})
  | None =>
      (Ok tt,
       {| shown := shown c ++ [line]; attempts := S (attempts c);
          fault := fault c |})
  end.

(** A method: it changes the game and the console and returns or raises. *)
Definition Method : Type :=
  EarTrainingGame → Console → Outcome unit * EarTrainingGame * Console.

(** [EarTrainingGame()] *)
Definition init : EarTrainingGame :=
  {| user_guesses := []; elapsed_time := 0%float; running := false |}.

Definition notify_gui : Method :=
  λ self c,
    let '(r, c') := print (StateLine (elapsed_time self) (user_guesses self)) c in
    (r, self, c').

Definition add_user_guess (solfege : string) : Method :=
  λ self c,
    let self' :=
      {| user_guesses := user_guesses self ++ [solfege];
         elapsed_time := elapsed_time self;
         running := running self |} in
    notify_gui self' c.

Definition remove_user_guess : Method :=
  λ self c,
    let self' :=
      match user_guesses self with
      | [] => self
      | _ :: _ =>
          {| user_guesses := removelast (user_guesses self);
             elapsed_time := elapsed_time self;
             running := running self |}
      end in
    notify_gui self' c.

(** [self.elapsed_time += 1/60] *)
Definition advance_clock (self : EarTrainingGame) : EarTrainingGame :=
  {| user_guesses := user_guesses self;
     elapsed_time := PrimFloat.add (elapsed_time self)
                       (PrimFloat.div 1%float 60%float);
     running := running self |}.

(** The loop [while self.running] of [_game_clock], inside its [try]. *)
Fixpoint clock_loop (fuel : nat) : Method :=
  λ self c,
    if running self then
      match fuel with
      | O => (OutOfFuel, self, c)
      | S fuel' =>
          let self1 := advance_clock self in
          match notify_gui self1 c with
          | (Ok _, self2, c2) => clock_loop fuel' self2 c2
          | stopped => stopped
          end
      end
    else (Ok tt, self, c).

(** [_game_clock]: the loop, and the [except Exception] branch that prints
    the error. *)
Definition _game_clock (fuel : nat) : Method :=
  λ self c,
    match clock_loop fuel self c with
    | (Raise e, self', c') =>
        let '(r, c'') := print (ErrorLine e) c' in (r, self', c'')
    | finished => finished
    end.

(** [start_game] and [stop_game], as seen by the caller: the write to
    [running]. *)
Definition start_game (self : EarTrainingGame) : EarTrainingGame :=
  {| user_guesses := user_guesses self;
     elapsed_time := elapsed_time self;
     running := true |}.

Definition stop_game (self : EarTrainingGame) : EarTrainingGame :=
  {| user_guesses := user_guesses self;
     elapsed_time := elapsed_time self;
     running := false |}.

(** A console that accepts every write, and one whose first write fails. *)
Definition healthy_console : Console :=
  {| shown := []; attempts := 0; fault := λ _, None |}.

Definition broken_once_console : Console :=
  {| shown := []; attempts := 0;
     fault := λ n, match n with O => Some OSError | S _ => None end |}.

(** Two random sources for the examples: the draws 0, 1, 2, ... and the
    constant draw [2^53 - 1]. *)
Definition counting_source : RandomSource := λ n, N.of_nat n.
Definition top_source : RandomSource := λ _, (2 ^ 53 - 1)%N.

(** ** The mode table (the same in both files) *)

Definition modes : gmap string (list Z) :=
  list_to_map
    [("Ionian", [60; 62; 64; 65; 67; 69; 71]);
     ("Dorian", [60; 62; 63; 65; 67; 69; 70]);
     ("Phrygian", [60; 61; 63; 65; 67; 68; 70]);
     ("Lydian", [60; 62; 64; 66; 67; 69; 71]);
     ("Mixolydian", [60; 62; 64; 65; 67; 69; 70]);
     ("Aeolian", [60; 62; 63; 65; 67; 68; 70]);
     ("Locrian", [60; 61; 63; 65; 66; 68; 70]);
     ("Melodic Minor", [60; 62; 63; 65; 67; 69; 71]);
     ("Dorian b2", [60; 61; 63; 65; 67; 69; 71]);
     ("Lydian Augmented", [60; 62; 64; 66; 68; 69; 71]);
     ("Lydian Dominant", [60; 62; 64; 66; 67; 69; 70]);
     ("Mixolydian b6", [60; 62; 64; 65; 67; 68; 70]);
     ("Locrian #2", [60; 62; 63; 65; 66; 68; 70]);
     ("Altered Scale", [60; 61; 63; 64; 66; 68; 70]);
     ("Chromatic", [60; 61; 62; 63; 64; 65; 66; 67; 68; 69; 70; 71])].

(** A list of pitches climbs strictly. *)
Fixpoint ascending (xs : list Z) : Prop :=
  match xs with
  | x :: ((y :: _) as rest) => x < y ∧ ascending rest
  | _ => True
  end.

(** ** [main] of [backend.py]: reading the test notes back

    The line [[solfege_to_midi[note] for note in midi_test_notes.split('_')]]
    that follows the call of [generate_test_sequence]. *)

Module main.

Definition test_sequence_midi (midi_test_notes : string) : Outcome (list Z) :=
  Py.comprehension (Py.getitem solfege_to_midi)
    (Py.split_on "_" midi_test_notes).

End main.

(** The first character of a string is a decimal digit or a minus sign. *)
Definition starts_like_a_number (s : string) : bool :=
  match s with
  | EmptyString => false
  | String c _ =>
      Ascii.eqb c "-"
      || ((48 <=? nat_of_ascii c)%nat && (nat_of_ascii c <=? 57)%nat)
  end.

(** Every character of a string is white space. *)
Fixpoint blank (s : string) : bool :=
  match s with
  | EmptyString => true
  | String c s' => Py.isspace c && blank s'
  end.

(** A chord moved by a number of semitones. *)
Definition transpose_chord (semitones : Z) (chord : Z * Z * Z) : Z * Z * Z :=
  let '(a, b, c) := chord in (a + semitones, b + semitones, c + semitones).

(** ** Playing notes ([backend.py])

    The MIDI port and the clock are the outside world: [performed] lists the
    messages sent and the pauses taken, in order; [calls] counts the calls of
    [midi_output.send] and [time.sleep] that got as far as the port or the
    clock, and [failure n] is the exception, if any, that the [n]-th of them
    raises there (a closed port, an interrupted pause). Durations are
    binary64 floats. *)

Inductive MidiEvent : Type :=
  | NoteOn (note velocity : Z)
  | NoteOff (note velocity : Z)
  | Sleep (duration : float).

Record Stage : Type := {
  performed : list MidiEvent;
  calls : nat;
  failure : nat → option Exn
}.

Definition Play : Type := Stage → Outcome unit * Stage.

Definition perform (event : MidiEvent) : Play :=
  λ w,
    match failure w (calls w) with
    | Some e =>
        (Raise e,
         {| performed := performed w; calls := S (calls w);
            failure := failure w |})
    | None =>
        (Ok tt,
         {| performed := performed w ++ [event]; calls := S (calls w);
            failure := failure w |})
    end.

(** [Message(kind, note=note, velocity=velocity)]: mido checks every data
    byte and raises [ValueError] for one outside 0..127. *)
Definition Message (kind : Z → Z → MidiEvent) (note velocity : Z)
  : Outcome MidiEvent :=
  if decide (0 ≤ note ≤ 127) then
    if decide (0 ≤ velocity ≤ 127) then Ok (kind note velocity)
    else Raise ValueError
  else Raise ValueError.

(** [midi_output.send(message)], the message being built first. *)
Definition send (message : Outcome MidiEvent) : Play :=
  λ w,
    match message with
    | Ok event => perform event w
    | Raise e => (Raise e, w)
    | OutOfFuel => (OutOfFuel, w)
    end.

(** What [time.sleep(secs)] rejects before it sleeps: NaN is a
    [ValueError], a length whose nanoseconds do not fit in a signed 64-bit
    integer (below -2^63, or 2^63 and above) an [OverflowError], a negative
    length a [ValueError]. *)
Definition sleep_check (secs : float) : option Exn :=
  if PrimFloat.is_nan secs then Some ValueError
  else
    let nanoseconds := PrimFloat.mul secs 1e9%float in
    if PrimFloat.ltb nanoseconds (-9223372036854775808)%float
       || PrimFloat.leb 9223372036854775808%float nanoseconds
    then Some OverflowError
    else if PrimFloat.ltb secs 0%float then Some ValueError
    else None.

(** [time.sleep(secs)] *)
Definition sleep (secs : float) : Play :=
  λ w,
    match sleep_check secs with
    | Some e => (Raise e, w)
    | None => perform (Sleep secs) w
    end.

(** [first; second], where an exception in [first] skips [second]. *)
Definition and_then (first second : Play) : Play :=
  λ w,
    match first w with
    | (Ok _, w') => second w'
    | stopped => stopped
    end.

(** [for note in notes: body(note)] *)
Fixpoint for_each_note (body : Z → Play) (notes : list Z) : Play :=
  match notes with
  | [] => λ w, (Ok tt, w)
  | note :: rest => and_then (body note) (for_each_note body rest)
  end.

Definition play_midi_notes (notes : list Z) (duration : float) (chord : bool)
  : Play :=
  if chord then
    and_then (for_each_note (λ note, send (Message NoteOn note 64)) notes)
      (and_then (sleep duration)
         (for_each_note (λ note, send (Message NoteOff note 64)) notes))
  else
    for_each_note
      (λ note,
         and_then (send (Message NoteOn note 64))
           (and_then (sleep duration) (send (Message NoteOff note 64))))
      notes.

Definition play_sequence (reference_chord test_sequence : list Z)
  (chord_duration space_between test_note_speed : float) : Play :=
  and_then (play_midi_notes reference_chord chord_duration true)
    (and_then (sleep space_between)
       (play_midi_notes test_sequence test_note_speed false)).

(** How often a note is switched on, and off, in a list of events. *)
Definition is_note_on (note : Z) (event : MidiEvent) : bool :=
  match event with
  | NoteOn n _ => bool_decide (n = note)
  | _ => false
  end.

Definition is_note_off (note : Z) (event : MidiEvent) : bool :=
  match event with
  | NoteOff n _ => bool_decide (n = note)
  | _ => false
  end.

Definition times_on (note : Z) (events : list MidiEvent) : nat :=
  length (List.filter (is_note_on note) events).

Definition times_off (note : Z) (events : list MidiEvent) : nat :=
  length (List.filter (is_note_off note) events).

(** A stage on which no call fails. *)
Definition quiet_stage : Stage :=
  {| performed := []; calls := 0; failure := λ _, None |}.

(** ** The graphical front end ([EarTraining_GUI.py])

    The twelve entry widgets are the list of their texts. The class defines
    [update_input] twice; the second definition is the one in force. *)

Module EarTraining_GUI.

Definition verify_answers (user_inputs correct_answers : list Z) : list bool :=
  (λ '(user_input, correct_answer), bool_decide (user_input = correct_answer))
    <$> zip user_inputs correct_answers.

Definition solfege_map : gmap string Z :=
  list_to_map
    [("Do", 60); ("Ra", 61); ("Re", 62); ("Me", 63); ("Mi", 64);
     ("Fa", 65); ("Fi", 66); ("Sol", 67); ("Le", 68); ("La", 69);
     ("Te", 70); ("Ti", 71)].

(** [[solfege_map[note] for note in solfege if note in solfege_map]] *)
Fixpoint solfege_to_midi (solfege : list string) : list Z :=
  match solfege with
  | [] => []
  | note :: rest =>
      match solfege_map !! note with
      | Some midi => midi :: solfege_to_midi rest
      | None => solfege_to_midi rest
      end
  end.

(** The dictionary [solfege] of the first [update_input]: button text to
    syllable. *)
Definition solfege : gmap string string :=
  list_to_map
    [("Do", "do"); ("Ra", "ra"); ("Re", "re"); ("Me", "me"); ("Mi", "mi");
     ("Fa", "fa"); ("Fi", "fi"); ("Sol", "sol"); ("Le", "le"); ("La", "la");
     ("Te", "te"); ("Ti", "ti")].

(** [update_input]: the first empty entry receives the note. *)
Fixpoint update_input (note : string) (inputs : list string) : list string :=
  match inputs with
  | [] => []
  | entry :: rest =>
      if decide (entry = "") then (note +:+ entry) :: rest
      else entry :: update_input note rest
  end.

(** The loop of [backspace_input] over a list of entries: the first entry
    with a text is cleared. *)
Fixpoint clear_first_filled (entries : list string) : list string :=
  match entries with
  | [] => []
  | entry :: rest =>
      if decide (entry = "") then entry :: clear_first_filled rest
      else "" :: rest
  end.

(** [backspace_input]: the loop runs over [reversed(self.inputs)]. *)
Definition backspace_input (inputs : list string) : list string :=
  reverse (clear_first_filled (reverse inputs)).

End EarTraining_GUI.

(** The entries are filled from the left: texts first, then empty entries. *)
Definition packed (inputs : list string) : Prop :=
  ∃ filled free,
    inputs = filled ++ replicate free "" ∧ Forall (λ entry, entry ≠ "") filled.

(** * Properties *)

(** ** Sanity checks of the embedding on concrete inputs *)

Example split_drops_blank_runs :
  Py.split "  do re  mi fa " = ["do"; "re"; "mi"; "fa"].
Proof. reflexivity. Qed.

Example str_negative : Py.str (-6) = "-6".
Proof. reflexivity. Qed.

Example generate_two_octaves_in_D :
  generate_test_sequence backend.key_to_adjustment 4 4 "do re mi fa" 2 "D"
    counting_source 0%nat
  = Ok ("62_66_67_62", [60; 64; 65; 60], 8%nat).
Proof. vm_compute. reflexivity. Qed.

Example clock_stops_at_once_when_idle :
  _game_clock 0 init healthy_console = (Ok tt, init, healthy_console).
Proof. reflexivity. Qed.

(** ** Key table *)

(** C3. The two spellings D# and Eb do not map to the same pitch class: the
    table gives D# the offset 2 (that of D) and Eb the offset 3, in both
    files, so not every enharmonic pair agrees modulo 12. *)
Theorem enharmonic_D_sharp_E_flat_differ :
  backend.key_to_adjustment !! "D#" = Some 2
  ∧ backend.key_to_adjustment !! "Eb" = Some 3
  ∧ EarTraining.key_to_adjustment !! "D#" = Some 2
  ∧ EarTraining.key_to_adjustment !! "Eb" = Some 3
  ∧ ("D#", "Eb") ∈ enharmonic_pairs
  ∧ ¬ same_pitch_class backend.key_to_adjustment "D#" "Eb"
  ∧ ¬ same_pitch_class EarTraining.key_to_adjustment "D#" "Eb".
Proof.
  assert (Hb1 : backend.key_to_adjustment !! "D#" = Some 2) by (vm_compute; reflexivity).
  assert (Hb2 : backend.key_to_adjustment !! "Eb" = Some 3) by (vm_compute; reflexivity).
  assert (He1 : EarTraining.key_to_adjustment !! "D#" = Some 2) by (vm_compute; reflexivity).
  assert (He2 : EarTraining.key_to_adjustment !! "Eb" = Some 3) by (vm_compute; reflexivity).
  repeat split; try assumption.
  - unfold enharmonic_pairs. set_solver.
  - intros (a1 & a2 & H1 & H2 & Hmod).
    rewrite Hb1 in H1. rewrite Hb2 in H2.
    injection H1 as <-. injection H2 as <-. discriminate Hmod.
  - intros (a1 & a2 & H1 & H2 & Hmod).
    rewrite He1 in H1. rewrite He2 in H2.
    injection H1 as <-. injection H2 as <-. discriminate Hmod.
Qed.

(** The other spellings that both tables hold do agree. *)
Lemma enharmonic_other_pairs_agree :
  same_pitch_class backend.key_to_adjustment "C#" "Db"
  ∧ same_pitch_class backend.key_to_adjustment "F#" "Gb"
  ∧ same_pitch_class backend.key_to_adjustment "G#" "Ab"
  ∧ same_pitch_class EarTraining.key_to_adjustment "A#" "Bb".
Proof.
  repeat split.
  - exists 1, 1. repeat split; vm_compute; reflexivity.
  - exists 6, (-6). repeat split; vm_compute; reflexivity.
  - exists (-4), (-4). repeat split; vm_compute; reflexivity.
  - exists (-2), (-2). repeat split; vm_compute; reflexivity.
Qed.

(** ** Reference cadence *)

Section CadenceFacts.

Variable table : gmap string Z.

Lemma do_is_60 : Py.getitem solfege_to_midi "do" = Ok 60.
Proof. vm_compute. reflexivity. Qed.

Lemma cadence_of_offset (key : string) (adjustment : Z) :
  table !! key = Some adjustment →
  generate_reference_cadence table key
  = Ok {| dominant := (60 + adjustment - 5, 60 + adjustment - 1, 60 + adjustment + 2);
          tonic := (60 + adjustment, 60 + adjustment + 4, 60 + adjustment + 7) |}.
Proof.
  intros Hkey. unfold generate_reference_cadence.
  rewrite do_is_60. cbn [obind].
  unfold Py.getitem. rewrite Hkey. reflexivity.
Qed.

Lemma cadence_of_unknown_key (key : string) :
  table !! key = None → generate_reference_cadence table key = Raise KeyError.
Proof.
  intros Hkey. unfold generate_reference_cadence.
  rewrite do_is_60. cbn [obind].
  unfold Py.getitem. rewrite Hkey. reflexivity.
Qed.

End CadenceFacts.

(** C8. For a key of the table with offset [adjustment], and [r] the pitch
    of "do" plus that offset, the cadence is tonic = (r, r+4, r+7) and
    dominant = (r-5, r-1, r+2); it is a function of the key alone; for the
    key "D" it is tonic = (62, 66, 69) and dominant = (57, 61, 64). *)
Theorem reference_cadence_triads (key : string) (adjustment : Z) :
  backend.key_to_adjustment !! key = Some adjustment →
  let r := 60 + adjustment in
  Py.getitem solfege_to_midi "do" = Ok 60
  ∧ backend.generate_reference_cadence key
    = Ok {| dominant := (r - 5, r - 1, r + 2); tonic := (r, r + 4, r + 7) |}
  ∧ backend.generate_reference_cadence "D"
    = Ok {| dominant := (57, 61, 64); tonic := (62, 66, 69) |}.
Proof.
  intros Hkey r. split; [apply do_is_60 |]. split.
  - unfold backend.generate_reference_cadence.
    rewrite (cadence_of_offset _ key adjustment Hkey). reflexivity.
  - vm_compute. reflexivity.
Qed.

Lemma reference_cadence_triads_witness :
  backend.key_to_adjustment !! "G" = Some (-5)
  ∧ backend.generate_reference_cadence "G"
    = Ok {| dominant := (50, 54, 57); tonic := (55, 59, 62) |}.
Proof.
  assert (H : backend.key_to_adjustment !! "G" = Some (-5)) by (vm_compute; reflexivity).
  split; [exact H |].
  exact (proj1 (proj2 (reference_cadence_triads "G" (-5) H))).
Defined.

(** ** Scoring *)

Lemma detailed_match_from_in_range (pre guesses : list Z) (n i : nat) :
  (i + n ≤ length pre)%nat → (i + n ≤ length guesses)%nat →
  detailed_match_from pre guesses i n
  = Ok (zip_with note_match (take n (drop i pre)) (take n (drop i guesses))).
Proof.
  revert i. induction n as [| n IH]; intros i Hpre Hguess; [reflexivity |].
  cbn [detailed_match_from].
  destruct (lookup_lt_is_Some_2 pre i) as [a Ha]; [lia |].
  destruct (lookup_lt_is_Some_2 guesses i) as [b Hb]; [lia |].
  rewrite Ha, Hb, IH by lia. cbn [obind].
  rewrite (drop_S _ _ _ Ha), (drop_S _ _ _ Hb). reflexivity.
Qed.

Lemma detailed_match_from_short_guess (pre guesses : list Z) (n i : nat) :
  (0 < n)%nat → (i + n ≤ length pre)%nat → (length guesses < i + n)%nat →
  detailed_match_from pre guesses i n = Raise IndexError.
Proof.
  revert i. induction n as [| n IH]; intros i Hpos Hpre Hguess; [lia |].
  cbn [detailed_match_from].
  destruct (lookup_lt_is_Some_2 pre i) as [a Ha]; [lia |].
  rewrite Ha. destruct (guesses !! i) as [b |] eqn:Hb; [| reflexivity].
  apply lookup_lt_Some in Hb.
  rewrite IH by lia. reflexivity.
Qed.

(** Equal lengths: the comparison the contract describes. *)
Lemma validate_user_input_same_length (pre guesses : list Z) :
  length pre = length guesses →
  validate_user_input pre guesses
  = Ok (if decide (pre = guesses) then 1 else 0, zip_with note_match pre guesses).
Proof.
  intros Hlen. unfold validate_user_input.
  rewrite detailed_match_from_in_range by lia.
  cbn [obind drop]. rewrite firstn_all, Hlen, firstn_all. reflexivity.
Qed.

(** C2, as the code has it. There is no length check. With a guess list
    shorter than the ground truth the call raises [IndexError]; with a longer
    one it returns overall 0 and a per-note list as long as the ground truth,
    which compares the leading guesses and ignores the rest. *)
Theorem validate_user_input_unequal_lengths (pre guesses : list Z) :
  length pre ≠ length guesses →
  ((length guesses < length pre)%nat →
     validate_user_input pre guesses = Raise IndexError)
  ∧ ((length pre < length guesses)%nat →
     validate_user_input pre guesses
     = Ok (0, zip_with note_match pre (take (length pre) guesses))
     ∧ length (zip_with note_match pre (take (length pre) guesses)) = length pre).
Proof.
  intros Hne. split; intros Hlt.
  - unfold validate_user_input.
    rewrite detailed_match_from_short_guess by lia. reflexivity.
  - unfold validate_user_input.
    rewrite detailed_match_from_in_range by lia.
    cbn [obind drop]. rewrite firstn_all.
    destruct (decide (pre = guesses)) as [-> | _]; [lia |].
    split; [reflexivity |].
    rewrite length_zip_with, length_take. lia.
Qed.

Lemma validate_user_input_unequal_lengths_witness :
  validate_user_input [60; 62] [60] = Raise IndexError
  ∧ validate_user_input [60] [60; 62] = Ok (0, [1]).
Proof.
  split.
  - apply (validate_user_input_unequal_lengths [60; 62] [60]); simpl; lia.
  - apply (validate_user_input_unequal_lengths [60] [60; 62]); simpl; lia.
Defined.

(** C2 as stated fails: a guess list longer than the ground truth is
    accepted and a per-note list shorter than it is returned. *)
Lemma validate_user_input_truncates :
  length [60] ≠ length [60; 62]
  ∧ validate_user_input [60] [60; 62] = Ok (0, [1])
  ∧ (length [1] < length [60; 62])%nat.
Proof. repeat split; [discriminate | simpl; lia]. Qed.

(** ** Session state *)

Lemma notify_gui_keeps_game (self self' : EarTrainingGame) (c c' : Console)
  (r : Outcome unit) :
  notify_gui self c = (r, self', c') → self' = self.
Proof.
  unfold notify_gui.
  destruct (print (StateLine (elapsed_time self) (user_guesses self)) c).
  congruence.
Qed.

Lemma print_accepted (line : Line) (c : Console) :
  fault c (attempts c) = None →
  print line c
  = (Ok tt, {| shown := shown c ++ [line]; attempts := S (attempts c);
               fault := fault c |}).
Proof. intros H. unfold print. rewrite H. reflexivity. Qed.

(** An exception leaves the loop only while the game is running, and the
    loop writes nothing but [elapsed_time]. *)
Lemma clock_loop_raise (fuel : nat) :
  ∀ self c e self' c',
    clock_loop fuel self c = (Raise e, self', c') →
    running self = true ∧ running self' = true
    ∧ user_guesses self' = user_guesses self.
Proof.
  induction fuel as [| fuel IH]; intros self c e self' c' Hloop;
    cbn [clock_loop] in Hloop; destruct (running self) eqn:Hrun;
    try discriminate Hloop.
  destruct (notify_gui (advance_clock self) c) as [[r self2] c2] eqn:Hnotify.
  pose proof (notify_gui_keeps_game _ _ _ _ _ Hnotify) as ->.
  destruct r as [[] | e2 |].
  - apply IH in Hloop as (_ & Hrun' & Hguess). auto.
  - injection Hloop as <- <- <-. auto.
  - discriminate Hloop.
Qed.

(** C4, as the code has it. An exception raised inside the loop of the clock
    is caught by the clock itself; its handler prints an error line and
    writes no field, so [running] is still true afterwards: the session does
    not become idle. When the console accepts that line the clock returns
    normally. *)
Theorem game_clock_error_keeps_running (fuel : nat)
  (self self' : EarTrainingGame) (c c' : Console) (e : Exn) :
  clock_loop fuel self c = (Raise e, self', c') →
  running self' = true
  ∧ _game_clock fuel self c
    = (fst (print (ErrorLine e) c'), self', snd (print (ErrorLine e) c'))
  ∧ (fault c' (attempts c') = None →
     _game_clock fuel self c
     = (Ok tt, self',
        {| shown := shown c' ++ [ErrorLine e]; attempts := S (attempts c');
           fault := fault c' |})).
Proof.
  intros Hloop.
  destruct (clock_loop_raise _ _ _ _ _ _ Hloop) as (_ & Hrun & _).
  split; [exact Hrun |].
  assert (Hclock : _game_clock fuel self c
    = (fst (print (ErrorLine e) c'), self', snd (print (ErrorLine e) c'))).
  { unfold _game_clock. rewrite Hloop.
    destruct (print (ErrorLine e) c'). reflexivity. }
  split; [exact Hclock |].
  intros Hok. rewrite Hclock, print_accepted by exact Hok. reflexivity.
Qed.

Lemma game_clock_error_keeps_running_witness :
  let '(_, self', c') := _game_clock 1 (start_game init) broken_once_console in
  running self' = true ∧ shown c' = [ErrorLine OSError].
Proof.
  pose proof (game_clock_error_keeps_running 1 (start_game init)
                (advance_clock (start_game init))
                broken_once_console
                {| shown := []; attempts := 1; fault := fault broken_once_console |}
                OSError eq_refl) as (Hrun & _ & Hclock).
  rewrite (Hclock eq_refl). split; reflexivity.
Defined.

(** C4 as stated fails: after an exception in the tick the flag [running] is
    true, not false. *)
Lemma game_clock_error_not_idle :
  clock_loop 1 (start_game init) broken_once_console
  = (Raise OSError, advance_clock (start_game init),
     {| shown := []; attempts := 1; fault := fault broken_once_console |})
  ∧ running (snd (fst (_game_clock 1 (start_game init) broken_once_console)))
    ≠ false.
Proof. split; [reflexivity | discriminate]. Qed.

(** Removing from an empty buffer is the notification and nothing else. *)
Lemma remove_user_guess_empty_is_notify (self : EarTrainingGame) (c : Console) :
  user_guesses self = [] → remove_user_guess self c = notify_gui self c.
Proof. intros H. unfold remove_user_guess. rewrite H. reflexivity. Qed.

(** C9. With an empty guess buffer [remove_user_guess] pops nothing and
    raises nothing: the game (guesses, elapsed time, running flag) is
    unchanged, the call returns, and one state line for that unchanged game
    is printed. *)
Theorem remove_user_guess_empty (self : EarTrainingGame) (c : Console) :
  user_guesses self = [] →
  fault c (attempts c) = None →
  remove_user_guess self c
  = (Ok tt, self,
     {| shown := shown c ++ [StateLine (elapsed_time self) []];
        attempts := S (attempts c); fault := fault c |}).
Proof.
  intros Hempty Hok.
  rewrite remove_user_guess_empty_is_notify by exact Hempty.
  unfold notify_gui. rewrite print_accepted by exact Hok.
  rewrite Hempty. reflexivity.
Qed.

Lemma remove_user_guess_empty_witness :
  remove_user_guess init healthy_console
  = (Ok tt, init,
     {| shown := [StateLine 0%float []]; attempts := 1;
        fault := fault healthy_console |}).
Proof. apply (remove_user_guess_empty init healthy_console); reflexivity. Defined.

(** ** The random source *)

Lemma bind_ok {A B : Type} (c : Rand A) (k : A → Rand B) src pos a pos' :
  c src pos = Ok (a, pos') → bind c k src pos = k a src pos'.
Proof. intros H. unfold bind. rewrite H. reflexivity. Qed.

Lemma bind_raise {A B : Type} (c : Rand A) (k : A → Rand B) src pos e :
  c src pos = Raise e → bind c k src pos = Raise e.
Proof. intros H. unfold bind. rewrite H. reflexivity. Qed.

Lemma choice_empty {A : Type} src pos :
  random.choice (@nil A) src pos = Raise IndexError.
Proof. reflexivity. Qed.

Lemma choice_nonempty {A : Type} (seq : list A) src pos :
  seq ≠ [] → ∃ x, random.choice seq src pos = Ok (x, S pos) ∧ x ∈ seq.
Proof.
  intros Hne. destruct seq as [| a seq']; [done |].
  unfold random.choice.
  set (i := N.to_nat (src pos mod N.of_nat (length (a :: seq')))%N).
  assert (Hi : (i < length (a :: seq'))%nat).
  { pose proof (N.mod_lt (src pos) (N.of_nat (length (a :: seq')))) as Hlt.
    unfold i. cbn [length] in *. lia. }
  destruct (lookup_lt_is_Some_2 _ _ Hi) as [x Hx].
  rewrite Hx. exists x. split; [reflexivity |].
  eapply list_elem_of_lookup_2, Hx.
Qed.

Lemma randint_in_range (a b : Z) src pos :
  a ≤ b → ∃ x, random.randint a b src pos = Ok (x, S pos) ∧ a ≤ x ≤ b.
Proof.
  intros Hab. unfold random.randint.
  destruct (Z.ltb_spec b a) as [Hlt | _]; [lia |].
  eexists. split; [reflexivity |].
  pose proof (Z.mod_pos_bound (Z.of_N (src pos)) (b - a + 1)). lia.
Qed.

(** ** Counting pitches *)

Lemma few_pitches_all_equal (notes : list Z) :
  (distinct_pitches notes < 2)%nat → ∀ a b, a ∈ notes → b ∈ notes → a = b.
Proof.
  unfold distinct_pitches. intros Hfew a b Ha Hb.
  apply elem_of_remove_dups in Ha, Hb.
  destruct (remove_dups notes) as [| x [| y rest]]; cbn [length] in Hfew.
  - by apply elem_of_nil in Ha.
  - apply list_elem_of_singleton in Ha, Hb. congruence.
  - lia.
Qed.

Lemma two_pitches_leave_a_choice (notes : list Z) (prev : Z) :
  (2 ≤ distinct_pitches notes)%nat → filter (λ note, note ≠ prev) notes ≠ [].
Proof.
  unfold distinct_pitches. intros Htwo Hnil.
  pose proof (NoDup_remove_dups notes) as Hnodup.
  destruct (remove_dups notes) as [| x [| y rest]] eqn:Hdups;
    cbn [length] in Htwo; try lia.
  assert (Hx : x ∈ notes) by (apply elem_of_remove_dups; rewrite Hdups; set_solver).
  assert (Hy : y ∈ notes) by (apply elem_of_remove_dups; rewrite Hdups; set_solver).
  assert (Hxy : x ≠ y).
  { apply NoDup_cons_1_1 in Hnodup. set_solver. }
  destruct (decide (x = prev)) as [-> | Hxp].
  - assert (Hin : y ∈ filter (λ note, note ≠ prev) notes)
      by (apply list_elem_of_filter; auto).
    rewrite Hnil in Hin. by apply elem_of_nil in Hin.
  - assert (Hin : x ∈ filter (λ note, note ≠ prev) notes)
      by (apply list_elem_of_filter; auto).
    rewrite Hnil in Hin. by apply elem_of_nil in Hin.
Qed.

Lemma one_pitch_leaves_no_choice (notes : list Z) (prev : Z) :
  (distinct_pitches notes < 2)%nat → prev ∈ notes →
  filter (λ note, note ≠ prev) notes = [].
Proof.
  intros Hfew Hprev.
  destruct (filter (λ note, note ≠ prev) notes) as [| x rest] eqn:Hfilter;
    [reflexivity |].
  assert (Hin : x ∈ filter (λ note, note ≠ prev) notes)
    by (rewrite Hfilter; apply list_elem_of_here).
  apply list_elem_of_filter in Hin as [Hne Hx].
  destruct Hne. exact (few_pitches_all_equal notes Hfew x prev Hx Hprev).
Qed.

Lemma no_immediate_repeat_snoc (xs : list Z) (prev x : Z) :
  no_immediate_repeat xs → last xs = Some prev → x ≠ prev →
  no_immediate_repeat (xs ++ [x]).
Proof.
  induction xs as [| a [| b xs'] IH]; intros Hxs Hlast Hne.
  - discriminate Hlast.
  - injection Hlast as ->. cbn. split; [congruence | exact I].
  - destruct Hxs as [Hab Hrest]. split; [exact Hab |].
    apply IH; assumption.
Qed.

(** ** The loop that extends the ground truth *)

Section ExtendSequence.

Variables (selected : list Z) (number_of_notes : Z).

(** With a candidate left after every note, and fuel for the missing
    notes, the loop returns a sequence of [max(number_of_notes, len)]
    notes from the allowed set, without immediate repeats. *)
Lemma extend_sequence_returns :
  (∀ prev, filter (λ note, note ≠ prev) selected ≠ []) →
  ∀ fuel midi_sequence src pos,
    midi_sequence ≠ [] →
    (Z.to_nat (number_of_notes - Py.len midi_sequence) ≤ fuel)%nat →
    no_immediate_repeat midi_sequence →
    Forall (λ note, note ∈ selected) midi_sequence →
    ∃ result pos',
      extend_sequence fuel number_of_notes selected midi_sequence src pos
      = Ok (result, pos')
      ∧ pos' = (pos + Z.to_nat (number_of_notes - Py.len midi_sequence))%nat
      ∧ Py.len result = Z.max number_of_notes (Py.len midi_sequence)
      ∧ no_immediate_repeat result
      ∧ Forall (λ note, note ∈ selected) result.
Proof.
  intros Hchoice fuel.
  induction fuel as [| fuel IH]; intros seq src pos Hne Hfuel Hnir Hall;
    cbn [extend_sequence];
    destruct (Z.ltb_spec (Py.len seq) number_of_notes) as [Hlt | Hge];
    try (exists seq, pos; split; [reflexivity |];
         split; [lia | split; [lia | split; assumption]]).
  - lia.
  - destruct (proj2 (last_is_Some seq) Hne) as [prev Hprev].
    unfold Py.getlast. rewrite Hprev.
    destruct (choice_nonempty _ src pos (Hchoice prev)) as (x & Hx & Hin).
    apply list_elem_of_filter in Hin as [Hxprev Hxsel].
    unfold bind at 1. cbn [lift].
    rewrite (bind_ok _ _ _ _ _ _ Hx).
    assert (Hlen : Py.len (seq ++ [x]) = Py.len seq + 1).
    { unfold Py.len. rewrite length_app. cbn [length]. lia. }
    destruct (IH (seq ++ [x]) src (S pos))
      as (result & pos' & Hres & Hpos & Hl & Hn & Ha).
    + by destruct seq.
    + rewrite Hlen. lia.
    + eapply no_immediate_repeat_snoc; eassumption.
    + apply Forall_app_2; [assumption | by constructor].
    + exists result, pos'. split; [exact Hres |].
      split; [rewrite Hpos, Hlen; lia |].
      split; [rewrite Hl, Hlen; lia | split; assumption].
Qed.

(** With a single pitch the first pass of the loop has no candidate. *)
Lemma extend_sequence_stuck (fuel : nat) (first_note : Z) src pos :
  (distinct_pitches selected < 2)%nat → first_note ∈ selected →
  1 < number_of_notes →
  extend_sequence (S fuel) number_of_notes selected [first_note] src pos
  = Raise IndexError.
Proof.
  intros Hfew Hin Hcount. cbn [extend_sequence].
  destruct (Z.ltb_spec (Py.len [first_note]) number_of_notes) as [_ | Hge];
    [| unfold Py.len in Hge; cbn [length] in Hge; lia].
  unfold bind at 1. cbn [lift Py.getlast last].
  rewrite one_pitch_leaves_no_choice by assumption.
  reflexivity.
Qed.

(** For a count of at most one the loop body never runs. *)
Lemma extend_sequence_skipped (fuel : nat) (midi_sequence : list Z) src pos :
  number_of_notes ≤ Py.len midi_sequence →
  extend_sequence fuel number_of_notes selected midi_sequence src pos
  = Ok (midi_sequence, pos).
Proof.
  intros Hle. destruct fuel; cbn [extend_sequence];
    destruct (Z.ltb_spec (Py.len midi_sequence) number_of_notes); try lia;
    reflexivity.
Qed.

End ExtendSequence.

(** ** The octave bands *)

Section OctaveWalk.

Variable octave_range : Z.

Lemma other_octaves_spec (prev x : Z) :
  x ∈ other_octaves octave_range prev ↔ x ≠ prev ∧ 1 ≤ x ≤ octave_range.
Proof.
  unfold other_octaves, Py.range.
  rewrite list_elem_of_filter, elem_of_seqZ. lia.
Qed.

Lemma other_octaves_nonempty (prev : Z) :
  2 ≤ octave_range → other_octaves octave_range prev ≠ [].
Proof.
  intros Hrange Hnil.
  assert (Hin : (if decide (prev = 1) then 2 else 1)
                ∈ other_octaves octave_range prev).
  { apply other_octaves_spec. destruct (decide (prev = 1)); lia. }
  rewrite Hnil in Hin. by apply elem_of_nil in Hin.
Qed.

(** One pass of the loop, with the draws written out. *)
Lemma next_octave_step_eq (octave_adjustments : list Z) (prev : Z) src pos :
  last octave_adjustments = Some prev →
  next_octave_step octave_range octave_adjustments src pos
  = let pick at_pos :=
      match random.choice (other_octaves octave_range prev) src at_pos with
      | Ok (next_octave, pos') => Ok (octave_adjustments ++ [next_octave], pos')
      | Raise e => Raise e
      | OutOfFuel => OutOfFuel
      end in
    if decide (prev = 1) then
      if random.lt_0_75 (src pos mod 2 ^ 53)%N
      then Ok (octave_adjustments ++ [1], S pos)
      else pick (S pos)
    else pick pos.
Proof.
  intros Hlast. unfold next_octave_step, Py.getlast. rewrite Hlast.
  unfold bind, lift, ret, random.random. cbv zeta.
  destruct (decide (prev = 1)); [| reflexivity].
  destruct (random.lt_0_75 (src pos mod 2 ^ 53)%N); reflexivity.
Qed.

(** One pass of the loop: a new band in range is appended, or, with a
    single band, the pass raises. *)
Lemma next_octave_step_cases (octave_adjustments : list Z) (prev : Z) src pos :
  last octave_adjustments = Some prev → 1 ≤ prev ≤ octave_range →
  (∃ next_octave pos',
      next_octave_step octave_range octave_adjustments src pos
      = Ok (octave_adjustments ++ [next_octave], pos')
      ∧ 1 ≤ next_octave ≤ octave_range)
  ∨ (octave_range = 1
     ∧ next_octave_step octave_range octave_adjustments src pos
       = Raise IndexError).
Proof.
  intros Hlast Hprev. rewrite (next_octave_step_eq _ _ _ _ Hlast). cbv zeta.
  destruct (decide (octave_range = 1)) as [Hone | Hmore].
  - assert (prev = 1) as -> by lia.
    destruct (decide (1 = 1)) as [_ | Hne]; [| done].
    destruct (random.lt_0_75 (src pos mod 2 ^ 53)%N).
    + left. exists 1, (S pos). split; [reflexivity | lia].
    + right. split; [exact Hone |]. rewrite Hone. reflexivity.
  - left.
    assert (Hsome : ∀ at_pos, ∃ x,
               random.choice (other_octaves octave_range prev) src at_pos
               = Ok (x, S at_pos) ∧ 1 ≤ x ≤ octave_range).
    { intros at_pos.
      destruct (choice_nonempty (other_octaves octave_range prev) src at_pos)
        as (x & Hx & Hin); [apply other_octaves_nonempty; lia |].
      apply other_octaves_spec in Hin. exists x. split; [exact Hx | lia]. }
    destruct (decide (prev = 1)) as [-> | Hnot1].
    + destruct (random.lt_0_75 (src pos mod 2 ^ 53)%N).
      * exists 1, (S pos). split; [reflexivity | lia].
      * destruct (Hsome (S pos)) as (x & Hx & Hband).
        rewrite Hx. exists x, (S (S pos)). split; [reflexivity | exact Hband].
    + destruct (Hsome pos) as (x & Hx & Hband).
      rewrite Hx. exists x, (S pos). split; [reflexivity | exact Hband].
Qed.

(** The whole loop: one band per pass, all in range; it can raise only
    when there is a single band and at least one pass. *)
Lemma octave_walk_cases (iterations : list Z) :
  ∀ octave_adjustments src pos,
    octave_adjustments ≠ [] →
    Forall (λ octave, 1 ≤ octave ≤ octave_range) octave_adjustments →
    (∃ result pos',
        octave_walk iterations octave_range octave_adjustments src pos
        = Ok (result, pos')
        ∧ length result = (length octave_adjustments + length iterations)%nat
        ∧ Forall (λ octave, 1 ≤ octave ≤ octave_range) result)
    ∨ (octave_range = 1 ∧ iterations ≠ []
       ∧ octave_walk iterations octave_range octave_adjustments src pos
         = Raise IndexError).
Proof.
  induction iterations as [| i rest IH]; intros adj src pos Hne Hall;
    cbn [octave_walk].
  - left. exists adj, pos. split; [reflexivity |].
    split; [cbn [length]; lia | exact Hall].
  - destruct (proj2 (last_is_Some adj) Hne) as [prev Hprev].
    assert (Hband : 1 ≤ prev ≤ octave_range).
    { apply last_Some_elem_of in Hprev.
      rewrite Forall_forall in Hall. auto. }
    destruct (next_octave_step_cases adj prev src pos Hprev Hband)
      as [(x & pos1 & Hstep & Hx) | [Hone Hstep]].
    + rewrite (bind_ok _ _ _ _ _ _ Hstep).
      destruct (IH (adj ++ [x]) src pos1) as
        [(result & pos' & Hres & Hlen & Hbands) | (Hone & _ & Hraise)].
      * by destruct adj.
      * apply Forall_app_2; [exact Hall | by constructor].
      * left. exists result, pos'. split; [exact Hres |].
        split; [| exact Hbands].
        rewrite Hlen, length_app. cbn [length]. lia.
      * right. split; [exact Hone |]. split; [done | exact Hraise].
    + right. split; [exact Hone |]. split; [done |].
      apply bind_raise, Hstep.
Qed.

End OctaveWalk.

Lemma adjusted_notes_display (key_adjustment : Z) (midi_sequence bands : list Z) :
  (λ note, note + key_adjustment)
    <$> ((λ '(note, octave), note + (octave - 1) * 12)
           <$> zip midi_sequence bands)
  = zip_with (display_note key_adjustment) midi_sequence bands.
Proof.
  revert bands. induction midi_sequence as [| note rest IH]; intros [| b bands];
    try reflexivity.
  cbn. f_equal. apply IH.
Qed.

(** ** The generator as a whole *)

Section GeneratorFacts.

Variable table : gmap string Z.
Variables (fuel : nat) (number_of_notes : Z) (solfege_syllables : string)
          (octave_range : Z) (key : string).
Variables (src : RandomSource) (pos : nat).
Variable notes : list Z.

Hypothesis syllables_valid :
  Py.comprehension (Py.getitem solfege_to_midi) (Py.split solfege_syllables)
  = Ok notes.

(** The ground truth, from the first draw to the end of the [while] loop. *)
Lemma ground_truth_returns (first_note : Z) (at_pos : nat) :
  first_note ∈ notes →
  (2 ≤ number_of_notes → (2 ≤ distinct_pitches notes)%nat) →
  (Z.to_nat (number_of_notes - 1) ≤ fuel)%nat →
  ∃ midi_sequence,
    extend_sequence fuel number_of_notes notes [first_note] src at_pos
    = Ok (midi_sequence, (at_pos + Z.to_nat (number_of_notes - 1))%nat)
    ∧ length midi_sequence = Z.to_nat (Z.max number_of_notes 1)
    ∧ no_immediate_repeat midi_sequence
    ∧ Forall (λ note, note ∈ notes) midi_sequence.
Proof.
  intros Hfirst Htwo Hfuel.
  destruct (Z_lt_le_dec number_of_notes 2) as [Hsmall | Hlarge].
  - exists [first_note].
    rewrite extend_sequence_skipped by (unfold Py.len; cbn [length]; lia).
    split; [f_equal; f_equal; lia |].
    split; [cbn [length]; lia |].
    split; [exact I | by constructor].
  - destruct (extend_sequence_returns notes number_of_notes
                (λ prev, two_pitches_leave_a_choice notes prev (Htwo Hlarge))
                fuel [first_note] src at_pos)
      as (result & pos' & Hres & Hpos & Hlen & Hnir & Hall).
    + done.
    + unfold Py.len. cbn [length]. lia.
    + exact I.
    + by constructor.
    + exists result. unfold Py.len in *. cbn [length] in *.
      rewrite Hres, Hpos.
      split; [f_equal; f_equal; lia |].
      split; [lia | split; assumption].
Qed.

(** On a valid input the generator gets as far as the loop over the octave
    bands: the ground truth is complete, the first band is drawn, and the
    result is decided by [octave_walk]. The first call of
    [random.random], if any, reads the draw at the position given here. *)
Lemma generate_notes_run (key_adjustment : Z) :
  notes ≠ [] →
  (2 ≤ number_of_notes → (2 ≤ distinct_pitches notes)%nat) →
  1 ≤ octave_range →
  table !! key = Some key_adjustment →
  (Z.to_nat (number_of_notes - 1) ≤ fuel)%nat →
  ∃ ground_truth first_octave,
    generate_notes table fuel number_of_notes solfege_syllables
      octave_range key src pos
    = match octave_walk (Py.range 1 number_of_notes) octave_range
              [first_octave] src
              (S (S pos + Z.to_nat (number_of_notes - 1))) with
      | Ok (bands, pos') =>
          Ok (zip_with (display_note key_adjustment) ground_truth bands,
              ground_truth, pos')
      | Raise e => Raise e
      | OutOfFuel => OutOfFuel
      end
    ∧ 1 ≤ first_octave ≤ octave_range
    ∧ length ground_truth = Z.to_nat (Z.max number_of_notes 1)
    ∧ Forall (λ note, note ∈ notes) ground_truth
    ∧ no_immediate_repeat ground_truth.
Proof.
  intros Hne Htwo Hrange Hkey Hfuel.
  destruct (choice_nonempty notes src pos Hne) as (first_note & Hfirst & Hin).
  destruct (ground_truth_returns first_note (S pos) Hin Htwo Hfuel)
    as (gt & Hgt & Hlen & Hnir & Hall).
  set (pos1 := (S pos + Z.to_nat (number_of_notes - 1))%nat) in *.
  destruct (randint_in_range 1 octave_range src pos1 Hrange)
    as (first_octave & Hoct & Hband).
  exists gt, first_octave.
  split; [| split; [exact Hband | split; [exact Hlen | split; assumption]]].
  unfold generate_notes, bind.
  rewrite syllables_valid. unfold lift at 1. cbv beta iota zeta.
  rewrite Hfirst. cbv beta iota.
  rewrite Hgt. cbv beta iota.
  rewrite Hoct. cbv beta iota.
  destruct (octave_walk (Py.range 1 number_of_notes) octave_range
              [first_octave] src (S pos1)) as [[bands pos'] | e |];
    [| reflexivity | reflexivity].
  unfold lift, Py.getitem. rewrite Hkey. cbv beta iota.
  rewrite adjusted_notes_display. reflexivity.
Qed.

(** What the generator does on a valid input: it returns the display notes
    computed note by note from a ground truth and a list of octave bands,
    or, when there is a single octave band and more than one note, it may
    raise [IndexError] from the choice among the other bands. It never
    runs out of fuel. *)
Lemma generate_notes_cases (key_adjustment : Z) :
  notes ≠ [] →
  (2 ≤ number_of_notes → (2 ≤ distinct_pitches notes)%nat) →
  1 ≤ octave_range →
  table !! key = Some key_adjustment →
  (Z.to_nat (number_of_notes - 1) ≤ fuel)%nat →
  (∃ ground_truth bands pos',
      generate_notes table fuel number_of_notes solfege_syllables
        octave_range key src pos
      = Ok (zip_with (display_note key_adjustment) ground_truth bands,
            ground_truth, pos')
      ∧ length ground_truth = Z.to_nat (Z.max number_of_notes 1)
      ∧ length bands = length ground_truth
      ∧ Forall (λ octave, 1 ≤ octave ≤ octave_range) bands
      ∧ Forall (λ note, note ∈ notes) ground_truth
      ∧ no_immediate_repeat ground_truth)
  ∨ (octave_range = 1 ∧ 2 ≤ number_of_notes
     ∧ generate_notes table fuel number_of_notes solfege_syllables
         octave_range key src pos
       = Raise IndexError).
Proof.
  intros Hne Htwo Hrange Hkey Hfuel.
  destruct (generate_notes_run key_adjustment Hne Htwo Hrange Hkey Hfuel)
    as (gt & first_octave & Hrun & Hband & Hlen & Hall & Hnir).
  assert (Hiter : length (Py.range 1 number_of_notes)
                  = Z.to_nat (number_of_notes - 1))
    by (unfold Py.range; apply length_seqZ).
  rewrite Hrun.
  destruct (octave_walk_cases octave_range (Py.range 1 number_of_notes)
              [first_octave] src
              (S (S pos + Z.to_nat (number_of_notes - 1))))
    as [(bands & pos' & Hwalk & Hblen & Hbands) | (Hone & Hiters & Hwalk)].
  - done.
  - by constructor.
  - left. exists gt, bands, pos'. rewrite Hwalk.
    split; [reflexivity |]. split; [exact Hlen |].
    split; [rewrite Hblen, Hiter, Hlen; cbn [length]; lia |].
    split; [exact Hbands | split; assumption].
  - right. split; [exact Hone |]. split.
    + destruct (Z_lt_le_dec number_of_notes 2) as [Hsmall | Hlarge];
        [| exact Hlarge].
      destruct Hiters. apply length_zero_iff_nil. rewrite Hiter. lia.
    + rewrite Hwalk. reflexivity.
Qed.

(** The method returns what [generate_notes] returns, with the display
    notes written out. *)
Lemma generate_test_sequence_of_notes :
  generate_test_sequence table fuel number_of_notes solfege_syllables
    octave_range key src pos
  = match generate_notes table fuel number_of_notes solfege_syllables
            octave_range key src pos with
    | Ok (adjusted_notes, pre_octave_key_list, pos') =>
        Ok (Py.join "_" (Py.str <$> adjusted_notes), pre_octave_key_list, pos')
    | Raise e => Raise e
    | OutOfFuel => OutOfFuel
    end.
Proof.
  unfold generate_test_sequence, bind.
  destruct (generate_notes table fuel number_of_notes solfege_syllables
              octave_range key src pos) as [[[adj pre] pos'] | e |];
    reflexivity.
Qed.

End GeneratorFacts.

Lemma two_pitches_nonempty (notes : list Z) :
  (2 ≤ distinct_pitches notes)%nat → notes ≠ [].
Proof. intros Htwo ->. unfold distinct_pitches in Htwo. cbn in Htwo. lia. Qed.

(** C5. With more than one note asked for and fewer than two distinct
    pitches among the syllables, the call raises [IndexError] (from the
    choice among the notes, which has no candidate): it neither returns a
    sequence nor keeps looping. One pass of fuel is enough to see it. *)
Theorem generate_single_pitch_raises (table : gmap string Z) (fuel : nat)
  (number_of_notes : Z) (solfege_syllables : string) (octave_range : Z)
  (key : string) (src : RandomSource) (pos : nat) (notes : list Z) :
  Py.comprehension (Py.getitem solfege_to_midi) (Py.split solfege_syllables)
  = Ok notes →
  (distinct_pitches notes < 2)%nat →
  1 < number_of_notes →
  (1 ≤ fuel)%nat →
  generate_test_sequence table fuel number_of_notes solfege_syllables
    octave_range key src pos
  = Raise IndexError.
Proof.
  intros Hvalid Hfew Hcount Hfuel.
  rewrite generate_test_sequence_of_notes.
  assert (Hnotes : generate_notes table fuel number_of_notes solfege_syllables
                     octave_range key src pos = Raise IndexError);
    [| rewrite Hnotes; reflexivity].
  unfold generate_notes, bind.
  rewrite Hvalid. unfold lift at 1. cbv beta iota zeta.
  destruct (decide (notes = [])) as [-> | Hne].
  - rewrite choice_empty. reflexivity.
  - destruct (choice_nonempty notes src pos Hne) as (first_note & Hfirst & Hin).
    rewrite Hfirst. cbv beta iota.
    destruct fuel as [| fuel']; [lia |].
    rewrite extend_sequence_stuck by assumption. reflexivity.
Qed.

Lemma generate_single_pitch_raises_witness :
  backend.generate_test_sequence 3 3 "do do" 2 "C" counting_source 0%nat
  = Raise IndexError.
Proof.
  apply (generate_single_pitch_raises backend.key_to_adjustment 3 3 "do do" 2
           "C" counting_source 0%nat [60; 60]).
  - vm_compute. reflexivity.
  - vm_compute. lia.
  - lia.
  - lia.
Defined.

(** An unknown syllable is a [KeyError], before any draw. *)
Lemma generate_unknown_syllable_raises (table : gmap string Z) (fuel : nat)
  (number_of_notes : Z) (solfege_syllables : string) (octave_range : Z)
  (key : string) (src : RandomSource) (pos : nat) (e : Exn) :
  Py.comprehension (Py.getitem solfege_to_midi) (Py.split solfege_syllables)
  = Raise e →
  generate_test_sequence table fuel number_of_notes solfege_syllables
    octave_range key src pos
  = Raise e.
Proof.
  intros Hbad. rewrite generate_test_sequence_of_notes.
  unfold generate_notes, bind. rewrite Hbad. reflexivity.
Qed.

(** C10. For a count of at most one (zero and negative counts included), a
    non-empty list of valid syllables, at least one octave band and a key of
    the table, the call returns, whatever the fuel and the random source: the
    ground truth and the display sequence have exactly one note each, that
    is [max(count, 1)] notes. *)
Theorem generate_count_at_most_one (table : gmap string Z) (fuel : nat)
  (number_of_notes : Z) (solfege_syllables : string) (octave_range : Z)
  (key : string) (key_adjustment : Z) (src : RandomSource) (pos : nat)
  (notes : list Z) :
  number_of_notes ≤ 1 →
  Py.comprehension (Py.getitem solfege_to_midi) (Py.split solfege_syllables)
  = Ok notes →
  notes ≠ [] →
  1 ≤ octave_range →
  table !! key = Some key_adjustment →
  ∃ note octave pos',
    generate_test_sequence table fuel number_of_notes solfege_syllables
      octave_range key src pos
    = Ok (Py.join "_" (Py.str <$> [display_note key_adjustment note octave]),
          [note], pos')
    ∧ note ∈ notes ∧ 1 ≤ octave ≤ octave_range
    ∧ Z.of_nat (length [note]) = Z.max number_of_notes 1.
Proof.
  intros Hcount Hvalid Hne Hrange Hkey.
  destruct (generate_notes_cases table fuel number_of_notes solfege_syllables
              octave_range key src pos notes Hvalid key_adjustment Hne)
    as [(gt & bands & pos' & Hgen & Hlen & Hblen & Hbands & Hall & _)
       | (_ & Hmany & _)]; try lia; try assumption.
  replace (Z.to_nat (Z.max number_of_notes 1)) with 1%nat in Hlen by lia.
  destruct gt as [| note [| ? ?]]; try discriminate Hlen.
  destruct bands as [| octave [| ? ?]]; try discriminate Hblen.
  exists note, octave, pos'.
  rewrite generate_test_sequence_of_notes, Hgen.
  split; [reflexivity |].
  rewrite Forall_singleton in Hall, Hbands.
  split; [exact Hall |]. split; [exact Hbands |]. cbn [length]. lia.
Qed.

Lemma generate_count_at_most_one_witness :
  ∃ note octave pos',
    backend.generate_test_sequence 0 (-3) "re mi" 2 "D" counting_source 0%nat
    = Ok (Py.join "_" (Py.str <$> [display_note 2 note octave]), [note], pos')
    ∧ note ∈ [62; 64] ∧ 1 ≤ octave ≤ 2
    ∧ Z.of_nat (length [note]) = Z.max (-3) 1.
Proof.
  apply (generate_count_at_most_one backend.key_to_adjustment 0 (-3) "re mi" 2
           "D" 2 counting_source 0%nat [62; 64]).
  - lia.
  - vm_compute. reflexivity.
  - discriminate.
  - lia.
  - vm_compute. reflexivity.
Defined.

(** C7. On a valid input, every display sequence the call returns is the
    ground truth moved note by note: both have [number_of_notes] notes, and
    note [i] is [ground_truth[i] + (band[i] - 1) * 12 + key offset] with a
    band between 1 and [octave_range]; the string returned is that sequence
    in decimal, joined with underscores. With two octave bands or more the
    call does return, for every random source, and it never runs out of
    fuel. *)
Theorem display_sequence_formula (table : gmap string Z) (fuel : nat)
  (number_of_notes : Z) (solfege_syllables : string) (octave_range : Z)
  (key : string) (key_adjustment : Z) (src : RandomSource) (pos : nat)
  (notes : list Z) :
  1 ≤ number_of_notes →
  Py.comprehension (Py.getitem solfege_to_midi) (Py.split solfege_syllables)
  = Ok notes →
  (2 ≤ distinct_pitches notes)%nat →
  1 ≤ octave_range →
  table !! key = Some key_adjustment →
  (Z.to_nat number_of_notes ≤ fuel)%nat →
  (∀ midi_test_notes ground_truth pos',
      generate_test_sequence table fuel number_of_notes solfege_syllables
        octave_range key src pos
      = Ok (midi_test_notes, ground_truth, pos') →
      ∃ display bands,
        midi_test_notes = Py.join "_" (Py.str <$> display)
        ∧ Py.len ground_truth = number_of_notes
        ∧ Py.len display = number_of_notes
        ∧ length display = length ground_truth
        ∧ length bands = length ground_truth
        ∧ ∀ i note, ground_truth !! i = Some note →
            ∃ band, bands !! i = Some band
                    ∧ 1 ≤ band ≤ octave_range
                    ∧ display !! i
                      = Some (note + (band - 1) * 12 + key_adjustment))
  ∧ (2 ≤ octave_range →
     ∃ midi_test_notes ground_truth pos',
       generate_test_sequence table fuel number_of_notes solfege_syllables
         octave_range key src pos
       = Ok (midi_test_notes, ground_truth, pos'))
  ∧ generate_test_sequence table fuel number_of_notes solfege_syllables
      octave_range key src pos
    ≠ OutOfFuel.
Proof.
  intros Hcount Hvalid Htwo Hrange Hkey Hfuel.
  rewrite generate_test_sequence_of_notes.
  destruct (generate_notes_cases table fuel number_of_notes solfege_syllables
              octave_range key src pos notes Hvalid key_adjustment
              (two_pitches_nonempty notes Htwo) (λ _, Htwo) Hrange Hkey)
    as [(gt & bands & pos0 & Hgen & Hlen & Hblen & Hbands & _ & _)
       | (Hone & _ & Hgen)]; [lia | | ]; rewrite Hgen.
  - split; [| split; [eauto | discriminate]].
    intros midi_test_notes ground_truth pos' Heq.
    injection Heq as <- <- <-.
    exists (zip_with (display_note key_adjustment) gt bands), bands.
    split; [reflexivity |].
    split; [unfold Py.len; lia |].
    split; [unfold Py.len; rewrite length_zip_with; lia |].
    split; [rewrite length_zip_with; lia |].
    split; [exact Hblen |].
    intros i note Hnote.
    destruct (lookup_lt_is_Some_2 bands i) as [band Hband].
    { rewrite Hblen. eapply lookup_lt_Some, Hnote. }
    exists band. split; [exact Hband |].
    split; [exact (proj1 (Forall_lookup _ _) Hbands i band Hband) |].
    rewrite lookup_zip_with, Hnote. cbn. rewrite Hband. reflexivity.
  - split; [discriminate |]. split; [lia | discriminate].
Qed.

Lemma display_sequence_formula_witness :
  ∃ display bands,
    "62_66_67_62" = Py.join "_" (Py.str <$> display)
    ∧ Py.len [60; 64; 65; 60] = 4
    ∧ Py.len display = 4
    ∧ length display = length [60; 64; 65; 60]
    ∧ length bands = length [60; 64; 65; 60]
    ∧ ∀ i note, [60; 64; 65; 60] !! i = Some note →
        ∃ band, bands !! i = Some band
                ∧ 1 ≤ band ≤ 2
                ∧ display !! i = Some (note + (band - 1) * 12 + 2).
Proof.
  refine (proj1 (display_sequence_formula backend.key_to_adjustment
            4 4 "do re mi fa" 2 "D" 2 counting_source 0%nat [60; 62; 64; 65]
            _ _ _ _ _ _) "62_66_67_62" [60; 64; 65; 60] 8%nat _).
  - lia.
  - vm_compute. reflexivity.
  - vm_compute. lia.
  - lia.
  - vm_compute. reflexivity.
  - simpl. lia.
  - vm_compute. reflexivity.
Defined.

(** X11. With two octave bands or more the generator returns on every valid
    input: both sequences have [number_of_notes] notes, the ground truth is
    drawn from the allowed pitches and has no immediate repeat. *)
Lemma generate_test_sequence_returns (table : gmap string Z) (fuel : nat)
  (number_of_notes : Z) (solfege_syllables : string) (octave_range : Z)
  (key : string) (key_adjustment : Z) (src : RandomSource) (pos : nat)
  (notes : list Z) :
  1 ≤ number_of_notes →
  Py.comprehension (Py.getitem solfege_to_midi) (Py.split solfege_syllables)
  = Ok notes →
  (2 ≤ distinct_pitches notes)%nat →
  2 ≤ octave_range →
  table !! key = Some key_adjustment →
  (Z.to_nat number_of_notes ≤ fuel)%nat →
  ∃ display ground_truth pos',
    generate_test_sequence table fuel number_of_notes solfege_syllables
      octave_range key src pos
    = Ok (Py.join "_" (Py.str <$> display), ground_truth, pos')
    ∧ Py.len display = number_of_notes
    ∧ Py.len ground_truth = number_of_notes
    ∧ Forall (λ note, note ∈ notes) ground_truth
    ∧ no_immediate_repeat ground_truth.
Proof.
  intros Hcount Hvalid Htwo Hrange Hkey Hfuel.
  rewrite generate_test_sequence_of_notes.
  destruct (generate_notes_cases table fuel number_of_notes solfege_syllables
              octave_range key src pos notes Hvalid key_adjustment
              (two_pitches_nonempty notes Htwo) (λ _, Htwo))
    as [(gt & bands & pos0 & Hgen & Hlen & Hblen & Hbands & Hall & Hnir)
       | (Hone & _ & _)]; try lia; try assumption.
  rewrite Hgen.
  exists (zip_with (display_note key_adjustment) gt bands), gt, pos0.
  split; [reflexivity |]. unfold Py.len.
  rewrite length_zip_with.
  split; [lia |]. split; [lia |]. split; assumption.
Qed.

Lemma display_of_first_band (ground_truth bands : list Z) :
  length bands = length ground_truth →
  Forall (λ octave, 1 ≤ octave ≤ 1) bands →
  zip_with (display_note 0) ground_truth bands = ground_truth.
Proof.
  revert bands. induction ground_truth as [| note rest IH];
    intros [| octave bands] Hlen Hbands; try discriminate Hlen; [reflexivity |].
  apply Forall_cons in Hbands as [Hoctave Hbands].
  cbn [length] in Hlen.
  cbn [zip_with]. rewrite IH; [| lia | assumption].
  unfold display_note. f_equal. lia.
Qed.

(** X12. With one octave band and a key of offset 0, whenever the generator
    returns, the display sequence is the ground truth itself. *)
Lemma single_band_display_is_ground_truth (table : gmap string Z) (fuel : nat)
  (number_of_notes : Z) (solfege_syllables : string) (key : string)
  (src : RandomSource) (pos : nat) (notes : list Z)
  (midi_test_notes : string) (ground_truth : list Z) (pos' : nat) :
  1 ≤ number_of_notes →
  Py.comprehension (Py.getitem solfege_to_midi) (Py.split solfege_syllables)
  = Ok notes →
  (2 ≤ distinct_pitches notes)%nat →
  table !! key = Some 0 →
  (Z.to_nat number_of_notes ≤ fuel)%nat →
  generate_test_sequence table fuel number_of_notes solfege_syllables 1 key
    src pos
  = Ok (midi_test_notes, ground_truth, pos') →
  midi_test_notes = Py.join "_" (Py.str <$> ground_truth)
  ∧ Py.len ground_truth = number_of_notes
  ∧ Forall (λ note, note ∈ notes) ground_truth
  ∧ no_immediate_repeat ground_truth.
Proof.
  intros Hcount Hvalid Htwo Hkey Hfuel.
  rewrite generate_test_sequence_of_notes.
  destruct (generate_notes_cases table fuel number_of_notes solfege_syllables
              1 key src pos notes Hvalid 0
              (two_pitches_nonempty notes Htwo) (λ _, Htwo))
    as [(gt & bands & pos0 & Hgen & Hlen & Hblen & Hbands & Hall & Hnir)
       | (_ & _ & Hgen)]; try lia; try assumption;
    rewrite Hgen; [| discriminate].
  intros Heq. injection Heq as <- <- <-.
  rewrite display_of_first_band by assumption.
  split; [reflexivity |]. unfold Py.len.
  split; [lia |]. split; assumption.
Qed.

(** C6, where the code departs from it. With a single octave band and two
    notes or more, on an otherwise valid input, the call raises [IndexError]
    as soon as the first [random.random()] of the octave loop is 0.75 or more:
    the band must then change and there is no other band to choose. That
    draw is the one at position [pos + number_of_notes + 1]. *)
Theorem single_band_generation_raises (table : gmap string Z) (fuel : nat)
  (number_of_notes : Z) (solfege_syllables : string)
  (key : string) (key_adjustment : Z) (src : RandomSource) (pos : nat)
  (notes : list Z) :
  2 ≤ number_of_notes →
  Py.comprehension (Py.getitem solfege_to_midi) (Py.split solfege_syllables)
  = Ok notes →
  (2 ≤ distinct_pitches notes)%nat →
  table !! key = Some key_adjustment →
  (Z.to_nat number_of_notes ≤ fuel)%nat →
  random.lt_0_75
    (src (S (S pos + Z.to_nat (number_of_notes - 1))) mod 2 ^ 53)%N = false →
  generate_test_sequence table fuel number_of_notes solfege_syllables 1 key
    src pos
  = Raise IndexError.
Proof.
  intros Hcount Hvalid Htwo Hkey Hfuel Hdraw.
  rewrite generate_test_sequence_of_notes.
  destruct (generate_notes_run table fuel number_of_notes solfege_syllables
              1 key src pos notes Hvalid key_adjustment
              (two_pitches_nonempty notes Htwo) (λ _, Htwo))
    as (gt & first_octave & Hrun & Hband & _); try lia; try assumption.
  assert (first_octave = 1) as -> by lia.
  rewrite Hrun.
  assert (Hiter : length (Py.range 1 number_of_notes)
                  = Z.to_nat (number_of_notes - 1))
    by (unfold Py.range; apply length_seqZ).
  destruct (Py.range 1 number_of_notes) as [| i rest];
    [cbn [length] in Hiter; lia |].
  cbn [octave_walk].
  rewrite (bind_raise _ _ _ _ IndexError); [reflexivity |].
  rewrite (next_octave_step_eq 1 [1] 1) by reflexivity. cbv zeta.
  destruct (decide (1 = 1)) as [_ | Hne]; [| done].
  rewrite Hdraw. reflexivity.
Qed.

Lemma single_band_generation_raises_witness :
  backend.generate_test_sequence 2 2 "do re" 1 "C" top_source 0%nat
  = Raise IndexError.
Proof.
  apply (single_band_generation_raises backend.key_to_adjustment 2 2 "do re"
           "C" 0 top_source 0%nat [60; 62]).
  - lia.
  - vm_compute. reflexivity.
  - vm_compute. lia.
  - vm_compute. reflexivity.
  - simpl. lia.
  - vm_compute. reflexivity.
Defined.

(** C1, where the code departs from it. On the example of the
    specification (four notes from do, re, mi, fa, one octave band, key C)
    and the random source whose every draw is [2^53 - 1], the call does not
    return: it raises [IndexError], in both files. *)
Theorem single_band_example_raises :
  backend.generate_test_sequence 4 4 "do re mi fa" 1 "C" top_source 0%nat
  = Raise IndexError
  ∧ EarTraining.generate_test_sequence 4 4 "do re mi fa" 1 "C" top_source 0%nat
    = Raise IndexError.
Proof. split; vm_compute; reflexivity. Qed.

(** On the same example a source whose draws stay below 0.75 lets the call
    return, and the display sequence is the ground truth. *)
Example single_band_example_returns :
  backend.generate_test_sequence 4 4 "do re mi fa" 1 "C" counting_source 0%nat
  = Ok ("60_64_65_60", [60; 64; 65; 60], 8%nat).
Proof. vm_compute. reflexivity. Qed.

(** ** The string that carries the display sequence

    [main] reads the notes back with [midi_test_notes.split('_')]: the
    pieces are the decimal numbers in order, so the string determines the
    display sequence. *)

Lemma append_snoc (word : string) (c : ascii) (rest : string) :
  (word +:+ String c "") +:+ rest = word +:+ String c rest.
Proof.
  induction word as [| a word IH]; [reflexivity |].
  change (String a ((word +:+ String c "") +:+ rest)
          = String a (word +:+ String c rest)).
  f_equal. exact IH.
Qed.

Lemma append_empty_r (s : string) : s +:+ "" = s.
Proof.
  induction s as [| a s IH]; [reflexivity |].
  change (String a (s +:+ "") = String a s). f_equal. exact IH.
Qed.

Lemma split_on_from_piece (sep : ascii) (piece : string) :
  Py.contains sep piece = false →
  ∀ word rest,
    Py.split_on_from sep word (piece +:+ rest)
    = Py.split_on_from sep (word +:+ piece) rest.
Proof.
  induction piece as [| c piece IH]; intros Hfree word rest.
  - by rewrite append_empty_r.
  - cbn in Hfree. apply orb_false_iff in Hfree as [Hc Hfree].
    change (String c piece +:+ rest) with (String c (piece +:+ rest)).
    cbn [Py.split_on_from]. rewrite Hc.
    rewrite IH by exact Hfree. rewrite append_snoc. reflexivity.
Qed.

Lemma join_cons (sep piece next : string) (pieces : list string) :
  Py.join sep (piece :: next :: pieces)
  = piece +:+ sep +:+ Py.join sep (next :: pieces).
Proof. reflexivity. Qed.

Lemma split_on_from_sep (sep : ascii) (word rest : string) :
  Py.split_on_from sep word (String sep "" +:+ rest)
  = word :: Py.split_on_from sep "" rest.
Proof.
  change (String sep "" +:+ rest) with (String sep rest).
  cbn [Py.split_on_from]. rewrite Ascii.eqb_refl. reflexivity.
Qed.

Lemma split_on_join (sep : ascii) (pieces : list string) :
  Forall (λ piece, Py.contains sep piece = false) pieces →
  ∀ piece word,
    Py.contains sep piece = false →
    Py.split_on_from sep word (Py.join (String sep "") (piece :: pieces))
    = (word +:+ piece) :: pieces.
Proof.
  induction 1 as [| next pieces Hnext Hall IH]; intros piece word Hpiece.
  - change (Py.join (String sep "") [piece]) with piece.
    rewrite <- (append_empty_r piece) at 1.
    rewrite split_on_from_piece by exact Hpiece. reflexivity.
  - rewrite join_cons, split_on_from_piece by exact Hpiece.
    rewrite split_on_from_sep, IH by exact Hnext. reflexivity.
Qed.

Lemma digits_free_of_underscore (d : Decimal.uint) :
  Py.contains "_" (NilEmpty.string_of_uint d) = false.
Proof. induction d; cbn; [reflexivity | assumption ..]. Qed.

Lemma str_free_of_underscore (n : Z) : Py.contains "_" (Py.str n) = false.
Proof.
  unfold Py.str, NilZero.string_of_int, NilZero.string_of_uint.
  destruct (Z.to_int n) as [d | d]; destruct d; cbn;
    try reflexivity; apply digits_free_of_underscore.
Qed.

Lemma str_inj (m n : Z) : Py.str m = Py.str n → m = n.
Proof.
  assert (Hread : ∀ z, NilZero.int_of_string (Py.str z) = Some (Z.to_int z)).
  { intros z. apply NilZero.isi; destruct z as [| p | p]; cbn; try discriminate;
      intros Heq; injection Heq; apply Unsigned.to_uint_nonnil. }
  intros Heq.
  pose proof (Hread m) as Hm. rewrite Heq, Hread in Hm.
  injection Hm as Hm.
  rewrite <- (of_to m), <- (of_to n), Hm. reflexivity.
Qed.

(** Splitting the returned string at the underscores gives back the notes,
    each in decimal. *)
Lemma split_display_string (display : list Z) :
  display ≠ [] →
  Py.split_on "_" (Py.join "_" (Py.str <$> display)) = Py.str <$> display.
Proof.
  destruct display as [| note rest]; [done | intros _].
  unfold Py.split_on. cbn [fmap list_fmap].
  rewrite split_on_join; [reflexivity | | apply str_free_of_underscore].
  apply Forall_fmap, Forall_forall. intros z _. apply str_free_of_underscore.
Qed.

(** X20. Two non-empty display sequences with the same string are equal. *)
Lemma display_string_determines_notes (display1 display2 : list Z) :
  display1 ≠ [] → display2 ≠ [] →
  Py.join "_" (Py.str <$> display1) = Py.join "_" (Py.str <$> display2) →
  display1 = display2.
Proof.
  intros Hne1 Hne2 Heq.
  pose proof (split_display_string display1 Hne1) as H1.
  rewrite Heq, split_display_string in H1 by exact Hne2.
  clear Heq Hne1 Hne2. revert display2 H1.
  induction display1 as [| a rest1 IH]; intros [| b rest2] Hmap;
    try discriminate Hmap; [reflexivity |].
  injection Hmap as Hhead Htail.
  f_equal; [symmetry; apply str_inj, Hhead | apply IH, Htail].
Qed.

(** * Further properties of the code *)

(** ** Scoring on lists of equal length *)

Lemma all_match_iff_equal (pre guesses : list Z) :
  length pre = length guesses →
  Forall (λ m, m = 1) (zip_with note_match pre guesses) ↔ pre = guesses.
Proof.
  revert guesses. induction pre as [| a pre IH]; intros [| b guesses] Hlen;
    try discriminate Hlen.
  - split; [reflexivity | constructor].
  - cbn [zip_with]. rewrite Forall_cons, IH by (cbn [length] in Hlen; lia).
    unfold note_match. destruct (decide (a = b)) as [-> | Hne].
    + split; [intros [_ ->]; reflexivity | intros Heq; split; congruence].
    + split; [intros [Hone _]; discriminate Hone | congruence].
Qed.

(** X1. With lists of equal length the call returns one mark per note: mark [i]
    is 1 exactly when the two notes at [i] are equal, and the overall mark is
    1 exactly when the lists are equal, that is when every mark is 1. *)
Theorem validate_user_input_marks (pre guesses : list Z) :
  length pre = length guesses →
  ∃ overall per_note,
    validate_user_input pre guesses = Ok (overall, per_note)
    ∧ length per_note = length pre
    ∧ (overall = 1 ∨ overall = 0)
    ∧ (overall = 1 ↔ pre = guesses)
    ∧ (overall = 1 ↔ Forall (λ m, m = 1) per_note)
    ∧ ∀ i a b, pre !! i = Some a → guesses !! i = Some b →
        per_note !! i = Some (if decide (a = b) then 1 else 0).
Proof.
  intros Hlen. rewrite validate_user_input_same_length by exact Hlen.
  eexists _, _. split; [reflexivity |].
  split; [rewrite length_zip_with; lia |].
  assert (Hoverall : (if decide (pre = guesses) then 1 else 0) = 1 ↔ pre = guesses)
    by (destruct (decide (pre = guesses)); split; try done).
  split; [destruct (decide (pre = guesses)); auto |].
  split; [exact Hoverall |].
  split; [rewrite Hoverall, all_match_iff_equal by exact Hlen; reflexivity |].
  intros i a b Ha Hb. rewrite lookup_zip_with, Ha. cbn. rewrite Hb. reflexivity.
Qed.

Lemma validate_user_input_marks_witness :
  ∃ overall per_note,
    validate_user_input [60; 62; 64] [60; 65; 64] = Ok (overall, per_note)
    ∧ length per_note = 3%nat
    ∧ (overall = 1 ∨ overall = 0)
    ∧ (overall = 1 ↔ [60; 62; 64] = [60; 65; 64])
    ∧ (overall = 1 ↔ Forall (λ m, m = 1) per_note)
    ∧ ∀ i a b, [60; 62; 64] !! i = Some a → [60; 65; 64] !! i = Some b →
        per_note !! i = Some (if decide (a = b) then 1 else 0).
Proof. apply (validate_user_input_marks [60; 62; 64] [60; 65; 64]). reflexivity. Defined.

(** A sequence scored against itself gets full marks, the empty sequence
    included. *)
Theorem validate_user_input_self (notes : list Z) :
  validate_user_input notes notes = Ok (1, replicate (length notes) 1).
Proof.
  rewrite validate_user_input_same_length by reflexivity.
  destruct (decide (notes = notes)) as [_ | Hne]; [| done].
  do 2 f_equal. induction notes as [| a notes IH]; [reflexivity |].
  cbn [zip_with length replicate]. rewrite IH. unfold note_match.
  destruct (decide (a = a)); [reflexivity | done].
Qed.

Lemma zip_with_match_insert (pre : list Z) (k : nat) (a b : Z) :
  pre !! k = Some a → b ≠ a →
  zip_with note_match pre (<[k:=b]> pre) = <[k:=0]> (replicate (length pre) 1).
Proof.
  assert (Hsame : ∀ l : list Z,
             zip_with note_match l l = replicate (length l) 1).
  { induction l as [| y l IHl]; [reflexivity |].
    cbn [zip_with length replicate]. rewrite IHl. unfold note_match.
    destruct (decide (y = y)); [reflexivity | done]. }
  revert k. induction pre as [| x pre IH]; intros k Hk Hne; [discriminate Hk |].
  cbn [length replicate]. destruct k as [| k].
  - injection Hk as ->.
    change (<[0%nat:=b]> (a :: pre)) with (b :: pre).
    change (<[0%nat:=0]> (1 :: replicate (length pre) 1))
      with (0 :: replicate (length pre) 1).
    cbn [zip_with]. rewrite Hsame. unfold note_match.
    destruct (decide (a = b)); [congruence | reflexivity].
  - change (<[S k:=b]> (x :: pre)) with (x :: <[k:=b]> pre).
    change (<[S k:=0]> (1 :: replicate (length pre) 1))
      with (1 :: <[k:=0]> (replicate (length pre) 1)).
    cbn [zip_with]. rewrite (IH k Hk Hne). unfold note_match.
    destruct (decide (x = x)); [reflexivity | done].
Qed.

(** X2. One wrong guess: when the guesses are the ground truth with the note at
    index [k] replaced by a different one, the overall mark is 0 and the
    marks are all 1 but for a 0 at index [k]. *)
Theorem validate_user_input_one_wrong (pre : list Z) (k : nat) (a b : Z) :
  pre !! k = Some a → b ≠ a →
  validate_user_input pre (<[k:=b]> pre)
  = Ok (0, <[k:=0]> (replicate (length pre) 1)).
Proof.
  intros Hk Hne.
  rewrite validate_user_input_same_length by (rewrite length_insert; reflexivity).
  rewrite (zip_with_match_insert pre k a b Hk Hne).
  destruct (decide (pre = <[k:=b]> pre)) as [Heq | _]; [| reflexivity].
  pose proof (lookup_lt_Some _ _ _ Hk) as Hlt.
  rewrite Heq, list_lookup_insert_eq in Hk by exact Hlt.
  congruence.
Qed.

Lemma validate_user_input_one_wrong_witness :
  validate_user_input [60; 62; 64; 65] [60; 62; 67; 65] = Ok (0, [1; 1; 0; 1]).
Proof.
  apply (validate_user_input_one_wrong [60; 62; 64; 65] 2 64 67);
    [reflexivity | discriminate].
Defined.

(** ** The front end's comparison *)

Lemma verify_answers_zip_with (user_inputs correct_answers : list Z) :
  EarTraining_GUI.verify_answers user_inputs correct_answers
  = zip_with (λ x y, bool_decide (x = y)) user_inputs correct_answers.
Proof.
  unfold EarTraining_GUI.verify_answers.
  revert correct_answers.
  induction user_inputs as [| x user_inputs IH]; intros [| y correct_answers];
    try reflexivity.
  cbn. f_equal. apply IH.
Qed.

(** X3. [verify_answers] compares as many pairs as the shorter list has: answer
    [i] exists exactly when both lists have an element at [i], and it tells
    whether the two are equal. *)
Theorem verify_answers_pairs (user_inputs correct_answers : list Z) :
  length (EarTraining_GUI.verify_answers user_inputs correct_answers)
  = (length user_inputs `min` length correct_answers)%nat
  ∧ ∀ i answer,
      EarTraining_GUI.verify_answers user_inputs correct_answers !! i
      = Some answer
      ↔ ∃ x y, user_inputs !! i = Some x ∧ correct_answers !! i = Some y
               ∧ answer = bool_decide (x = y).
Proof.
  rewrite verify_answers_zip_with. split.
  - apply length_zip_with.
  - intros i answer. rewrite lookup_zip_with.
    destruct (user_inputs !! i) as [x |]; cbn;
      [destruct (correct_answers !! i) as [y |]; cbn |].
    + split.
      * intros Heq. injection Heq as <-. eauto.
      * intros (x' & y' & Hx & Hy & ->).
        injection Hx as <-. injection Hy as <-. reflexivity.
    + split; [intros Hnone; discriminate Hnone |].
      intros (x' & y' & _ & Hy & _). discriminate Hy.
    + split; [intros Hnone; discriminate Hnone |].
      intros (x' & y' & Hx & _). discriminate Hx.
Qed.

Lemma marks_of_answers (pre guesses : list Z) :
  zip_with note_match pre guesses
  = (λ answer : bool, if answer then 1 else 0)
      <$> EarTraining_GUI.verify_answers guesses pre.
Proof.
  unfold EarTraining_GUI.verify_answers.
  revert guesses. induction pre as [| a pre IH]; intros [| b guesses];
    try reflexivity.
  cbn. rewrite <- IH. f_equal. unfold note_match.
  destruct (decide (a = b)) as [-> | Hne].
  - rewrite bool_decide_eq_true_2; reflexivity.
  - rewrite bool_decide_eq_false_2; [reflexivity | congruence].
Qed.

(** X4. The two comparisons agree: on lists of equal length the marks of
    [validate_user_input] are the answers of [verify_answers], written 1 for
    true and 0 for false. *)
Theorem validate_agrees_with_verify (pre guesses : list Z) :
  length pre = length guesses →
  ∃ overall,
    validate_user_input pre guesses
    = Ok (overall,
          (λ answer : bool, if answer then 1 else 0)
            <$> EarTraining_GUI.verify_answers guesses pre).
Proof.
  intros Hlen. rewrite validate_user_input_same_length by exact Hlen.
  rewrite marks_of_answers. eauto.
Qed.

Lemma validate_agrees_with_verify_witness :
  ∃ overall,
    validate_user_input [60; 62] [60; 64]
    = Ok (overall,
          (λ answer : bool, if answer then 1 else 0)
            <$> EarTraining_GUI.verify_answers [60; 64] [60; 62]).
Proof. apply (validate_agrees_with_verify [60; 62] [60; 64]). reflexivity. Defined.

(** ** The guess buffer *)

Lemma removelast_snoc (guesses : list string) (solfege : string) :
  removelast (guesses ++ [solfege]) = guesses.
Proof. apply removelast_last. Qed.

(** X5. Adding a guess and removing it again restores the game: the buffer, the
    elapsed time and the running flag are as before, and the two state lines
    printed show the buffer with and without the guess. *)
Theorem add_then_remove_restores (self : EarTrainingGame) (c : Console)
  (solfege : string) :
  fault c (attempts c) = None →
  fault c (S (attempts c)) = None →
  add_user_guess solfege self c
  = (Ok tt,
     {| user_guesses := user_guesses self ++ [solfege];
        elapsed_time := elapsed_time self; running := running self |},
     {| shown := shown c
                 ++ [StateLine (elapsed_time self) (user_guesses self ++ [solfege])];
        attempts := S (attempts c); fault := fault c |})
  ∧ remove_user_guess
      {| user_guesses := user_guesses self ++ [solfege];
         elapsed_time := elapsed_time self; running := running self |}
      {| shown := shown c
                  ++ [StateLine (elapsed_time self) (user_guesses self ++ [solfege])];
         attempts := S (attempts c); fault := fault c |}
    = (Ok tt, self,
       {| shown := (shown c
                    ++ [StateLine (elapsed_time self)
                          (user_guesses self ++ [solfege])])
                   ++ [StateLine (elapsed_time self) (user_guesses self)];
          attempts := S (S (attempts c)); fault := fault c |}).
Proof.
  intros Hfirst Hsecond. split.
  - unfold add_user_guess, notify_gui.
    rewrite print_accepted by exact Hfirst. reflexivity.
  - unfold remove_user_guess. cbn [user_guesses elapsed_time running].
    destruct (user_guesses self ++ [solfege]) as [| g rest] eqn:Hbuffer.
    { by destruct (user_guesses self). }
    rewrite <- Hbuffer, removelast_snoc.
    unfold notify_gui. rewrite print_accepted by exact Hsecond.
    destruct self. reflexivity.
Qed.

Lemma add_then_remove_restores_witness :
  remove_user_guess
    {| user_guesses := ["do"]; elapsed_time := 0%float; running := false |}
    {| shown := [StateLine 0%float ["do"]]; attempts := 1;
       fault := fault healthy_console |}
  = (Ok tt, init,
     {| shown := [StateLine 0%float ["do"]; StateLine 0%float []];
        attempts := 2; fault := fault healthy_console |}).
Proof.
  exact (proj2 (add_then_remove_restores init healthy_console "do"
                  eq_refl eq_refl)).
Defined.

(** X6. The guess is stored before the state is printed: when the print fails,
    [add_user_guess] raises that exception and the guess is in the buffer
    all the same. *)
Theorem add_user_guess_failed_print (self : EarTrainingGame) (c : Console)
  (solfege : string) (e : Exn) :
  fault c (attempts c) = Some e →
  add_user_guess solfege self c
  = (Raise e,
     {| user_guesses := user_guesses self ++ [solfege];
        elapsed_time := elapsed_time self; running := running self |},
     {| shown := shown c; attempts := S (attempts c); fault := fault c |}).
Proof.
  intros Hfault. unfold add_user_guess, notify_gui, print.
  cbn [user_guesses elapsed_time running]. rewrite Hfault. reflexivity.
Qed.

Lemma add_user_guess_failed_print_witness :
  add_user_guess "mi" init broken_once_console
  = (Raise OSError,
     {| user_guesses := ["mi"]; elapsed_time := 0%float; running := false |},
     {| shown := []; attempts := 1; fault := fault broken_once_console |}).
Proof.
  apply (add_user_guess_failed_print init broken_once_console "mi" OSError).
  reflexivity.
Defined.

(** ** The clock *)

Lemma print_frame (line : Line) (c : Console) :
  fault (snd (print line c)) = fault c
  ∧ ∃ lines, shown (snd (print line c)) = shown c ++ lines.
Proof.
  unfold print. destruct (fault c (attempts c)); cbn.
  - split; [reflexivity |]. exists []. by rewrite app_nil_r.
  - split; [reflexivity |]. eauto.
Qed.

Lemma clock_loop_frame (fuel : nat) :
  ∀ self c,
    user_guesses (snd (fst (clock_loop fuel self c))) = user_guesses self
    ∧ running (snd (fst (clock_loop fuel self c))) = running self
    ∧ fault (snd (clock_loop fuel self c)) = fault c
    ∧ ∃ lines, shown (snd (clock_loop fuel self c)) = shown c ++ lines.
Proof.
  induction fuel as [| fuel IH]; intros self c; cbn [clock_loop];
    destruct (running self) eqn:Hrun;
    try (cbn; repeat split; try assumption; exists []; by rewrite app_nil_r).
  unfold notify_gui.
  pose proof (print_frame
                (StateLine (elapsed_time (advance_clock self))
                   (user_guesses (advance_clock self))) c) as [Hfault [l1 Hshown]].
  destruct (print _ c) as [r c1]. cbn [snd] in Hfault, Hshown.
  destruct r as [[] | e |].
  - destruct (IH (advance_clock self) c1) as (Hg & Hr & Hf & l2 & Hs).
    rewrite Hg, Hr, Hf, Hs, Hfault, Hshown. cbn.
    repeat split; try assumption. exists (l1 ++ l2). by rewrite app_assoc.
  - cbn. repeat split; try assumption. eauto.
  - cbn. repeat split; try assumption. eauto.
Qed.

(** X7. The clock keeps its hands off the rest: whatever happens in
    [_game_clock] (it stops, it raises, it is still running), the guess
    buffer and the running flag are as they were, and the console has only
    gained lines. *)
Theorem game_clock_frame (fuel : nat) (self : EarTrainingGame) (c : Console) :
  user_guesses (snd (fst (_game_clock fuel self c))) = user_guesses self
  ∧ running (snd (fst (_game_clock fuel self c))) = running self
  ∧ ∃ lines, shown (snd (_game_clock fuel self c)) = shown c ++ lines.
Proof.
  unfold _game_clock.
  destruct (clock_loop_frame fuel self c) as (Hg & Hr & _ & l1 & Hs).
  destruct (clock_loop fuel self c) as [[r self'] c'].
  cbn [fst snd] in Hg, Hr, Hs.
  destruct r as [[] | e |]; cbn [fst snd].
  - split; [exact Hg |]. split; [exact Hr | eauto].
  - destruct (print_frame (ErrorLine e) c') as [_ [l2 Hs2]].
    destruct (print (ErrorLine e) c') as [r2 c2]. cbn [fst snd] in *.
    split; [exact Hg |]. split; [exact Hr |].
    exists (l1 ++ l2). rewrite Hs2, Hs. by rewrite app_assoc.
  - split; [exact Hg |]. split; [exact Hr | eauto].
Qed.

(** X8. While the flag is set and every print succeeds the clock does not stop:
    after any number of passes it is still in its loop, it has added 1/60 to
    the elapsed time once per pass and printed one state line per pass, each
    with the unchanged guess buffer. *)
Theorem game_clock_ticks (fuel : nat) (self : EarTrainingGame) (c : Console) :
  running self = true →
  (∀ n, fault c n = None) →
  ∃ lines,
    _game_clock fuel self c
    = (OutOfFuel, Nat.iter fuel advance_clock self,
       {| shown := shown c ++ lines; attempts := (attempts c + fuel)%nat;
          fault := fault c |})
    ∧ length lines = fuel
    ∧ Forall (λ line, ∃ elapsed, line = StateLine elapsed (user_guesses self))
        lines.
Proof.
  intros Hrun Hquiet.
  assert (Hloop : ∃ lines,
    clock_loop fuel self c
    = (OutOfFuel, Nat.iter fuel advance_clock self,
       {| shown := shown c ++ lines; attempts := (attempts c + fuel)%nat;
          fault := fault c |})
    ∧ length lines = fuel
    ∧ Forall (λ line, ∃ elapsed, line = StateLine elapsed (user_guesses self))
        lines).
  { revert self c Hrun Hquiet.
    induction fuel as [| fuel IH]; intros self c Hrun Hquiet;
      cbn [clock_loop]; rewrite Hrun.
    - exists []. rewrite app_nil_r, Nat.add_0_r. destruct c.
      split; [reflexivity |]. split; [reflexivity | constructor].
    - unfold notify_gui. rewrite print_accepted by apply Hquiet.
      destruct (IH (advance_clock self)
                  {| shown := shown c
                       ++ [StateLine (elapsed_time (advance_clock self))
                             (user_guesses (advance_clock self))];
                     attempts := S (attempts c); fault := fault c |})
        as (lines & Hloop & Hlen & Hall); [exact Hrun | exact Hquiet |].
      rewrite Hloop. cbn [shown attempts fault].
      exists (StateLine (elapsed_time (advance_clock self)) (user_guesses self)
              :: lines).
      split.
      + rewrite Nat.iter_succ_r. f_equal. f_equal; [| lia].
        rewrite <- app_assoc. reflexivity.
      + split; [cbn [length]; lia |]. constructor; [eauto | exact Hall]. }
  destruct Hloop as (lines & Hloop & Hlen & Hall).
  exists lines. unfold _game_clock. rewrite Hloop. auto.
Qed.

Lemma game_clock_ticks_witness :
  ∃ lines,
    _game_clock 3 (start_game init) healthy_console
    = (OutOfFuel, Nat.iter 3 advance_clock (start_game init),
       {| shown := lines; attempts := 3; fault := fault healthy_console |})
    ∧ length lines = 3%nat
    ∧ Forall (λ line, ∃ elapsed, line = StateLine elapsed []) lines.
Proof.
  exact (game_clock_ticks 3 (start_game init) healthy_console eq_refl
           (λ _, eq_refl)).
Defined.

(** ** The static tables *)

Ltac table_entries H :=
  apply elem_of_list_to_map_2 in H;
  repeat (apply elem_of_cons in H as [H | H]; [simplify_eq |]);
  [.. | by apply elem_of_nil in H].

Lemma solfege_pitch_range (syllable : string) (midi : Z) :
  solfege_to_midi !! syllable = Some midi → 60 ≤ midi ≤ 71.
Proof. intros H. unfold solfege_to_midi in H. table_entries H; lia. Qed.

(** X9. The syllable table is one-to-one onto the twelve pitches 60..71: no two
    syllables share a pitch and every pitch of the octave has a syllable. *)
Theorem solfege_to_midi_bijective :
  (∀ s1 s2 midi,
      solfege_to_midi !! s1 = Some midi → solfege_to_midi !! s2 = Some midi →
      s1 = s2)
  ∧ (∀ midi, 60 ≤ midi ≤ 71 ↔ ∃ syllable, solfege_to_midi !! syllable = Some midi).
Proof.
  split.
  - intros s1 s2 midi H1 H2. unfold solfege_to_midi in H1, H2.
    table_entries H1; table_entries H2; try reflexivity; discriminate.
  - intros midi. split; [| intros [syllable H]; eapply solfege_pitch_range, H].
    intros Hrange.
    assert (Hcases : midi = 60 ∨ midi = 61 ∨ midi = 62 ∨ midi = 63 ∨ midi = 64
                     ∨ midi = 65 ∨ midi = 66 ∨ midi = 67 ∨ midi = 68
                     ∨ midi = 69 ∨ midi = 70 ∨ midi = 71) by lia.
    destruct Hcases as [-> | [-> | [-> | [-> | [-> | [-> | [-> | [-> | [-> | [->
                       | [-> | ->]]]]]]]]]]];
      [exists "do" | exists "ra" | exists "re" | exists "me" | exists "mi"
       | exists "fa" | exists "fi" | exists "sol" | exists "le" | exists "la"
       | exists "te" | exists "ti"]; vm_compute; reflexivity.
Qed.

(** Every key offset, in either file, is between -6 and 6 semitones. *)
Theorem key_offsets_within_a_tritone (key : string) (adjustment : Z) :
  backend.key_to_adjustment !! key = Some adjustment
  ∨ EarTraining.key_to_adjustment !! key = Some adjustment →
  -6 ≤ adjustment ≤ 6.
Proof.
  intros [H | H];
    [unfold backend.key_to_adjustment in H
    | unfold EarTraining.key_to_adjustment in H];
    table_entries H; lia.
Qed.

Lemma key_offsets_within_a_tritone_witness : -6 ≤ -6 ≤ 6.
Proof.
  apply (key_offsets_within_a_tritone "Gb" (-6)).
  left. vm_compute. reflexivity.
Defined.

(** X10. Every mode is a scale on C inside one octave: it starts on 60,
    climbs strictly and ends at 71 or below; the chromatic mode has twelve
    notes and every other mode seven. *)
Theorem modes_are_scales_on_C (name : string) (scale : list Z) :
  modes !! name = Some scale →
  head scale = Some 60
  ∧ ascending scale
  ∧ Forall (λ note, 60 ≤ note ≤ 71) scale
  ∧ (name = "Chromatic" → length scale = 12%nat)
  ∧ (name ≠ "Chromatic" → length scale = 7%nat).
Proof.
  intros H. unfold modes in H.
  table_entries H;
    (split; [reflexivity |]; split; [cbn; lia |];
     split; [repeat constructor; lia |];
     split; [intros Hname; first [discriminate Hname | reflexivity]
            | intros Hname; first [reflexivity | by destruct Hname]]).
Qed.

Lemma modes_are_scales_on_C_witness :
  length [60; 61; 62; 63; 64; 65; 66; 67; 68; 69; 70; 71] = 12%nat
  ∧ length [60; 62; 63; 65; 67; 69; 70] = 7%nat.
Proof.
  split.
  - refine (proj1 (proj2 (proj2 (proj2
             (modes_are_scales_on_C "Chromatic"
                [60; 61; 62; 63; 64; 65; 66; 67; 68; 69; 70; 71] _)))) _);
      [vm_compute; reflexivity | reflexivity].
  - refine (proj2 (proj2 (proj2 (proj2
             (modes_are_scales_on_C "Dorian" [60; 62; 63; 65; 67; 69; 70] _))))
             _); [vm_compute; reflexivity | discriminate].
Defined.

(** ** The generator: what each input decides *)

(** The method step by step: the syllables are looked up, the first note and
    the rest of the ground truth are drawn, then the octave bands, and the
    key is looked up last. *)
Lemma generate_notes_eq (table : gmap string Z) (fuel : nat)
  (number_of_notes : Z) (solfege_syllables : string) (octave_range : Z)
  (key : string) (src : RandomSource) (pos : nat) :
  generate_notes table fuel number_of_notes solfege_syllables octave_range key
    src pos
  = match Py.comprehension (Py.getitem solfege_to_midi)
            (Py.split solfege_syllables) with
    | Ok notes =>
        match random.choice notes src pos with
        | Ok (first_note, pos1) =>
            match extend_sequence fuel number_of_notes notes [first_note]
                    src pos1 with
            | Ok (ground_truth, pos2) =>
                match random.randint 1 octave_range src pos2 with
                | Ok (first_octave, pos3) =>
                    match octave_walk (Py.range 1 number_of_notes)
                            octave_range [first_octave] src pos3 with
                    | Ok (bands, pos4) =>
                        match table !! key with
                        | Some key_adjustment =>
                            Ok (zip_with (display_note key_adjustment)
                                  ground_truth bands,
                                ground_truth, pos4)
                        | None => Raise KeyError
                        end
                    | Raise e => Raise e
                    | OutOfFuel => OutOfFuel
                    end
                | Raise e => Raise e
                | OutOfFuel => OutOfFuel
                end
            | Raise e => Raise e
            | OutOfFuel => OutOfFuel
            end
        | Raise e => Raise e
        | OutOfFuel => OutOfFuel
        end
    | Raise e => Raise e
    | OutOfFuel => OutOfFuel
    end.
Proof.
  unfold generate_notes, bind.
  destruct (Py.comprehension (Py.getitem solfege_to_midi)
              (Py.split solfege_syllables)) as [notes | e |];
    [| reflexivity | reflexivity].
  unfold lift at 1. cbv beta iota zeta.
  destruct (random.choice notes src pos) as [[first_note pos1] | e |];
    [| reflexivity | reflexivity].
  destruct (extend_sequence fuel number_of_notes notes [first_note] src pos1)
    as [[ground_truth pos2] | e |]; [| reflexivity | reflexivity].
  destruct (random.randint 1 octave_range src pos2)
    as [[first_octave pos3] | e |]; [| reflexivity | reflexivity].
  destruct (octave_walk (Py.range 1 number_of_notes) octave_range
              [first_octave] src pos3) as [[bands pos4] | e |];
    [| reflexivity | reflexivity].
  unfold lift, Py.getitem.
  destruct (table !! key) as [key_adjustment |]; [| reflexivity].
  cbv beta iota. rewrite adjusted_notes_display. reflexivity.
Qed.

Ltac run_generator H :=
  repeat match type of H with
         | context [match ?x with _ => _ end] =>
             lazymatch x with
             | context [match _ with _ => _ end] => fail
             | _ => destruct x eqn:?; try discriminate H
             end
         end.

Lemma comprehension_unknown (table : gmap string Z) (names : list string)
  (name : string) :
  name ∈ names → table !! name = None →
  Py.comprehension (Py.getitem table) names = Raise KeyError.
Proof.
  intros Hin Hnone. induction names as [| x names IH];
    [by apply elem_of_nil in Hin |].
  cbn [Py.comprehension]. unfold Py.getitem at 1.
  destruct (table !! x) as [v |] eqn:Hx; [| reflexivity].
  apply elem_of_cons in Hin as [-> | Hin]; [congruence |].
  cbn [obind]. rewrite (IH Hin). reflexivity.
Qed.

Lemma comprehension_values (table : gmap string Z) (names : list string)
  (values : list Z) :
  Py.comprehension (Py.getitem table) names = Ok values →
  Forall (λ v, ∃ name, table !! name = Some v) values.
Proof.
  revert values. induction names as [| x names IH]; intros values Heq;
    cbn [Py.comprehension] in Heq.
  - injection Heq as <-. constructor.
  - unfold Py.getitem at 1 in Heq.
    destruct (table !! x) as [v |] eqn:Hx; [| discriminate Heq].
    cbn [obind] in Heq.
    destruct (Py.comprehension (Py.getitem table) names) as [vs | e |];
      try discriminate Heq.
    injection Heq as <-. constructor; [eauto | by apply IH].
Qed.

(** X13. A syllable that is not in the table makes the call raise [KeyError],
    wherever it stands in the string and whatever the other arguments and the
    random source: nothing is drawn. *)
Theorem generate_rejects_unknown_syllable (table : gmap string Z) (fuel : nat)
  (number_of_notes : Z) (solfege_syllables : string) (octave_range : Z)
  (key : string) (src : RandomSource) (pos : nat) (syllable : string) :
  syllable ∈ Py.split solfege_syllables →
  solfege_to_midi !! syllable = None →
  generate_test_sequence table fuel number_of_notes solfege_syllables
    octave_range key src pos
  = Raise KeyError.
Proof.
  intros Hin Hnone. apply generate_unknown_syllable_raises.
  eapply comprehension_unknown; eassumption.
Qed.

Lemma generate_rejects_unknown_syllable_witness :
  backend.generate_test_sequence 4 4 "do Re mi" 2 "C" counting_source 0%nat
  = Raise KeyError.
Proof.
  apply (generate_rejects_unknown_syllable backend.key_to_adjustment 4 4
           "do Re mi" 2 "C" counting_source 0%nat "Re").
  - vm_compute. set_solver.
  - vm_compute. reflexivity.
Defined.

Lemma split_from_blank (s : string) :
  blank s = true → Py.split_from "" s = [].
Proof.
  induction s as [| c s IH]; intros Hblank; [reflexivity |].
  cbn [blank] in Hblank. apply andb_true_iff in Hblank as [Hc Hs].
  cbn [Py.split_from]. rewrite Hc. cbn. apply IH, Hs.
Qed.

(** X14. A syllable string that is empty or all white space gives no note to
    choose from: the call raises [IndexError], whatever the count. *)
Theorem generate_rejects_blank_syllables (table : gmap string Z) (fuel : nat)
  (number_of_notes : Z) (solfege_syllables : string) (octave_range : Z)
  (key : string) (src : RandomSource) (pos : nat) :
  blank solfege_syllables = true →
  generate_test_sequence table fuel number_of_notes solfege_syllables
    octave_range key src pos
  = Raise IndexError.
Proof.
  intros Hblank. rewrite generate_test_sequence_of_notes, generate_notes_eq.
  unfold Py.split. rewrite split_from_blank by exact Hblank. reflexivity.
Qed.

Lemma generate_rejects_blank_syllables_witness :
  backend.generate_test_sequence 4 1 "   " 2 "C" counting_source 0%nat
  = Raise IndexError.
Proof.
  apply (generate_rejects_blank_syllables backend.key_to_adjustment 4 1 "   "
           2 "C" counting_source 0%nat).
  reflexivity.
Defined.

(** X15. An octave range below 1 makes the call raise [ValueError] (from
    [random.randint(1, octave_range)]), after the ground truth is drawn. *)
Theorem generate_rejects_octave_range_below_one (table : gmap string Z)
  (fuel : nat) (number_of_notes : Z) (solfege_syllables : string)
  (octave_range : Z) (key : string) (src : RandomSource) (pos : nat)
  (notes : list Z) :
  Py.comprehension (Py.getitem solfege_to_midi) (Py.split solfege_syllables)
  = Ok notes →
  notes ≠ [] →
  (2 ≤ number_of_notes → (2 ≤ distinct_pitches notes)%nat) →
  (Z.to_nat (number_of_notes - 1) ≤ fuel)%nat →
  octave_range < 1 →
  generate_test_sequence table fuel number_of_notes solfege_syllables
    octave_range key src pos
  = Raise ValueError.
Proof.
  intros Hvalid Hne Htwo Hfuel Hrange.
  rewrite generate_test_sequence_of_notes, generate_notes_eq, Hvalid.
  destruct (choice_nonempty notes src pos Hne) as (first_note & Hfirst & Hin).
  rewrite Hfirst.
  destruct (ground_truth_returns fuel number_of_notes src notes first_note
              (S pos) Hin Htwo Hfuel) as (gt & Hgt & _).
  rewrite Hgt. unfold random.randint.
  destruct (Z.ltb_spec octave_range 1) as [_ | Hge]; [reflexivity | lia].
Qed.

Lemma generate_rejects_octave_range_below_one_witness :
  backend.generate_test_sequence 3 3 "do re mi" 0 "C" counting_source 0%nat
  = Raise ValueError.
Proof.
  apply (generate_rejects_octave_range_below_one backend.key_to_adjustment 3 3
           "do re mi" 0 "C" counting_source 0%nat [60; 62; 64]).
  - vm_compute. reflexivity.
  - discriminate.
  - intros _. vm_compute. lia.
  - simpl. lia.
  - lia.
Defined.

(** X16. A key that is not in the table makes the call raise [KeyError] on an
    otherwise valid input; the key is looked up last, after every draw. *)
Theorem generate_rejects_unknown_key (table : gmap string Z) (fuel : nat)
  (number_of_notes : Z) (solfege_syllables : string) (octave_range : Z)
  (key : string) (src : RandomSource) (pos : nat) (notes : list Z) :
  1 ≤ number_of_notes →
  Py.comprehension (Py.getitem solfege_to_midi) (Py.split solfege_syllables)
  = Ok notes →
  (2 ≤ distinct_pitches notes)%nat →
  2 ≤ octave_range →
  (Z.to_nat number_of_notes ≤ fuel)%nat →
  table !! key = None →
  generate_test_sequence table fuel number_of_notes solfege_syllables
    octave_range key src pos
  = Raise KeyError.
Proof.
  intros Hcount Hvalid Htwo Hrange Hfuel Hnone.
  destruct (generate_notes_cases (<[key:=0]> table) fuel number_of_notes
              solfege_syllables octave_range key src pos notes Hvalid 0
              (two_pitches_nonempty notes Htwo) (λ _, Htwo))
    as [(gt & bands & pos' & Hgen & _) | (Hone & _ & _)];
    [lia | apply lookup_insert_eq | lia | | lia].
  rewrite generate_test_sequence_of_notes, generate_notes_eq.
  rewrite generate_notes_eq in Hgen.
  run_generator Hgen. rewrite Hnone. reflexivity.
Qed.

Lemma generate_rejects_unknown_key_witness :
  backend.generate_test_sequence 4 4 "do re mi fa" 2 "A#" counting_source 0%nat
  = Raise KeyError.
Proof.
  apply (generate_rejects_unknown_key backend.key_to_adjustment 4 4
           "do re mi fa" 2 "A#" counting_source 0%nat [60; 62; 64; 65]).
  - lia.
  - vm_compute. reflexivity.
  - vm_compute. lia.
  - lia.
  - simpl. lia.
  - vm_compute. reflexivity.
Defined.

Lemma display_transposed (adjustment1 adjustment2 : Z) (ground_truth bands : list Z) :
  zip_with (display_note adjustment2) ground_truth bands
  = (λ note, note + (adjustment2 - adjustment1))
      <$> zip_with (display_note adjustment1) ground_truth bands.
Proof.
  revert bands. induction ground_truth as [| g rest IH]; intros [| b bands];
    try reflexivity.
  cbn [zip_with fmap list_fmap]. f_equal; [unfold display_note; lia |].
  apply IH.
Qed.

(** X17. Changing the key transposes the display sequence and nothing else: with
    the same random source, the call for a second key returns the display
    notes of the first moved by the difference of the two offsets, the same
    ground truth, and it has used the same draws. *)
Theorem generate_transposes_with_key (table : gmap string Z) (fuel : nat)
  (number_of_notes : Z) (solfege_syllables : string) (octave_range : Z)
  (key1 key2 : string) (adjustment1 adjustment2 : Z)
  (src : RandomSource) (pos : nat)
  (midi_test_notes : string) (ground_truth : list Z) (pos' : nat) :
  table !! key1 = Some adjustment1 →
  table !! key2 = Some adjustment2 →
  generate_test_sequence table fuel number_of_notes solfege_syllables
    octave_range key1 src pos
  = Ok (midi_test_notes, ground_truth, pos') →
  ∃ display,
    midi_test_notes = Py.join "_" (Py.str <$> display)
    ∧ generate_test_sequence table fuel number_of_notes solfege_syllables
        octave_range key2 src pos
      = Ok (Py.join "_"
              (Py.str <$> ((λ note, note + (adjustment2 - adjustment1))
                             <$> display)),
            ground_truth, pos').
Proof.
  intros Hkey1 Hkey2 Hgen.
  rewrite generate_test_sequence_of_notes, generate_notes_eq in Hgen |- *.
  run_generator Hgen. simplify_eq. cbv beta iota. rewrite Hkey2.
  eexists. split; [reflexivity |].
  rewrite (display_transposed adjustment1 adjustment2). reflexivity.
Qed.

Lemma generate_transposes_with_key_witness :
  ∃ display,
    "60_64_65_60" = Py.join "_" (Py.str <$> display)
    ∧ backend.generate_test_sequence 4 4 "do re mi fa" 2 "D" counting_source
        0%nat
      = Ok (Py.join "_" (Py.str <$> ((λ note, note + (2 - 0)) <$> display)),
            [60; 64; 65; 60], 8%nat).
Proof.
  apply (generate_transposes_with_key backend.key_to_adjustment 4 4
           "do re mi fa" 2 "C" "D" 0 2 counting_source 0%nat).
  - vm_compute. reflexivity.
  - vm_compute. reflexivity.
  - vm_compute. reflexivity.
Defined.

(** X18. The ground truth depends on the count, the syllables and the random
    source only: two calls that differ in the key, in the octave range or in
    the key table, and both return, return the same ground truth. *)
Theorem ground_truth_ignores_key_and_octaves (table1 table2 : gmap string Z)
  (fuel : nat) (number_of_notes : Z) (solfege_syllables : string)
  (octave_range1 octave_range2 : Z) (key1 key2 : string)
  (src : RandomSource) (pos : nat)
  (notes1 notes2 : string) (ground_truth1 ground_truth2 : list Z)
  (pos1 pos2 : nat) :
  generate_test_sequence table1 fuel number_of_notes solfege_syllables
    octave_range1 key1 src pos
  = Ok (notes1, ground_truth1, pos1) →
  generate_test_sequence table2 fuel number_of_notes solfege_syllables
    octave_range2 key2 src pos
  = Ok (notes2, ground_truth2, pos2) →
  ground_truth1 = ground_truth2.
Proof.
  intros Hgen1 Hgen2.
  rewrite generate_test_sequence_of_notes, generate_notes_eq in Hgen1, Hgen2.
  run_generator Hgen1. cbv beta iota in Hgen2. run_generator Hgen2.
  injection Hgen1 as _ <- _. injection Hgen2 as _ <- _. reflexivity.
Qed.

Lemma ground_truth_ignores_key_and_octaves_witness :
  backend.generate_test_sequence 4 4 "do re mi fa" 2 "D" counting_source 0%nat
  = Ok ("62_66_67_62", [60; 64; 65; 60], 8%nat)
  ∧ EarTraining.generate_test_sequence 4 4 "do re mi fa" 1 "C" counting_source
      0%nat
    = Ok ("60_64_65_60", [60; 64; 65; 60], 8%nat)
  ∧ [60; 64; 65; 60] = [60; 64; 65; 60].
Proof.
  assert (H1 : backend.generate_test_sequence 4 4 "do re mi fa" 2 "D"
                 counting_source 0%nat
               = Ok ("62_66_67_62", [60; 64; 65; 60], 8%nat))
    by (vm_compute; reflexivity).
  assert (H2 : EarTraining.generate_test_sequence 4 4 "do re mi fa" 1 "C"
                 counting_source 0%nat
               = Ok ("60_64_65_60", [60; 64; 65; 60], 8%nat))
    by (vm_compute; reflexivity).
  split; [exact H1 |]. split; [exact H2 |].
  exact (ground_truth_ignores_key_and_octaves
           backend.key_to_adjustment EarTraining.key_to_adjustment
           4 4 "do re mi fa" 2 1 "D" "C" counting_source 0%nat
           _ _ _ _ _ _ H1 H2).
Defined.

Lemma Forall_display (P Q R : Z → Prop) (adjustment : Z)
  (ground_truth bands : list Z) :
  (∀ note band, P note → Q band → R (display_note adjustment note band)) →
  Forall P ground_truth → Forall Q bands →
  Forall R (zip_with (display_note adjustment) ground_truth bands).
Proof.
  intros Hstep Hnotes. revert bands.
  induction Hnotes as [| note rest Hnote Hrest IH]; intros bands Hbands;
    [constructor |].
  destruct Hbands as [| band bands Hband Hbands]; constructor; auto.
Qed.

(** X19. The display notes stay in a known range: with the tables of
    [backend.py], every display note returned lies between 54 and
    [65 + 12 * octave_range], and the ground truth between 60 and 71. Up to
    five octave bands every display note is therefore a MIDI note number
    (0..127). *)
Theorem display_notes_range (fuel : nat) (number_of_notes : Z)
  (solfege_syllables : string) (octave_range : Z) (key : string)
  (key_adjustment : Z) (src : RandomSource) (pos : nat) (notes : list Z)
  (midi_test_notes : string) (ground_truth : list Z) (pos' : nat) :
  1 ≤ number_of_notes →
  Py.comprehension (Py.getitem solfege_to_midi) (Py.split solfege_syllables)
  = Ok notes →
  (2 ≤ distinct_pitches notes)%nat →
  1 ≤ octave_range →
  backend.key_to_adjustment !! key = Some key_adjustment →
  (Z.to_nat number_of_notes ≤ fuel)%nat →
  backend.generate_test_sequence fuel number_of_notes solfege_syllables
    octave_range key src pos
  = Ok (midi_test_notes, ground_truth, pos') →
  Forall (λ note, 60 ≤ note ≤ 71) ground_truth
  ∧ ∃ display,
      midi_test_notes = Py.join "_" (Py.str <$> display)
      ∧ Forall (λ note, 54 ≤ note ≤ 65 + 12 * octave_range) display
      ∧ (octave_range ≤ 5 → Forall (λ note, 0 ≤ note ≤ 127) display).
Proof.
  intros Hcount Hvalid Htwo Hrange Hkey Hfuel.
  unfold backend.generate_test_sequence.
  rewrite generate_test_sequence_of_notes.
  destruct (generate_notes_cases backend.key_to_adjustment fuel number_of_notes
              solfege_syllables octave_range key src pos notes Hvalid
              key_adjustment (two_pitches_nonempty notes Htwo) (λ _, Htwo))
    as [(gt & bands & pos0 & Hgen & _ & _ & Hbands & Hall & _)
       | (_ & _ & Hgen)]; try lia; try assumption;
    rewrite Hgen; [| discriminate].
  intros Heq. injection Heq as <- <- <-.
  assert (Hoffset : -6 ≤ key_adjustment ≤ 6).
  { unfold backend.key_to_adjustment in Hkey. table_entries Hkey; lia. }
  assert (Hpitch : Forall (λ note, 60 ≤ note ≤ 71) gt).
  { pose proof (comprehension_values _ _ _ Hvalid) as Hvalues.
    rewrite Forall_forall in Hall, Hvalues. apply Forall_forall.
    intros note Hnote.
    destruct (Hvalues note (Hall note Hnote)) as [syllable Hsyllable].
    eapply solfege_pitch_range, Hsyllable. }
  split; [exact Hpitch |].
  exists (zip_with (display_note key_adjustment) gt bands).
  split; [reflexivity |]. split.
  - eapply Forall_display; [| exact Hpitch | exact Hbands].
    cbv beta. unfold display_note. intros note band Hnote Hband. lia.
  - intros Hfive. eapply Forall_display; [| exact Hpitch | exact Hbands].
    cbv beta. unfold display_note. intros note band Hnote Hband. lia.
Qed.

Lemma display_notes_range_witness :
  Forall (λ note, 60 ≤ note ≤ 71) [60; 64; 65; 60]
  ∧ ∃ display,
      "62_66_67_62" = Py.join "_" (Py.str <$> display)
      ∧ Forall (λ note, 54 ≤ note ≤ 65 + 12 * 2) display
      ∧ (2 ≤ 5 → Forall (λ note, 0 ≤ note ≤ 127) display).
Proof.
  apply (display_notes_range 4 4 "do re mi fa" 2 "D" 2 counting_source 0%nat
           [60; 62; 64; 65] "62_66_67_62" [60; 64; 65; 60] 8%nat).
  - lia.
  - vm_compute. reflexivity.
  - vm_compute. lia.
  - lia.
  - vm_compute. reflexivity.
  - simpl. lia.
  - vm_compute. reflexivity.
Defined.

Lemma generate_test_sequence_returns_witness :
  ∃ display ground_truth pos',
    backend.generate_test_sequence 5 5 "do re mi fa sol la ti do" 2 "C"
      counting_source 0%nat
    = Ok (Py.join "_" (Py.str <$> display), ground_truth, pos')
    ∧ Py.len display = 5
    ∧ Py.len ground_truth = 5
    ∧ Forall (λ note, note ∈ [60; 62; 64; 65; 67; 69; 71; 60]) ground_truth
    ∧ no_immediate_repeat ground_truth.
Proof.
  apply (generate_test_sequence_returns backend.key_to_adjustment 5 5
           "do re mi fa sol la ti do" 2 "C" 0 counting_source 0%nat
           [60; 62; 64; 65; 67; 69; 71; 60]).
  - lia.
  - vm_compute. reflexivity.
  - vm_compute. lia.
  - lia.
  - vm_compute. reflexivity.
  - simpl. lia.
Defined.

Lemma single_band_display_is_ground_truth_witness :
  "60_64_65_60" = Py.join "_" (Py.str <$> [60; 64; 65; 60])
  ∧ Py.len [60; 64; 65; 60] = 4
  ∧ Forall (λ note, note ∈ [60; 62; 64; 65]) [60; 64; 65; 60]
  ∧ no_immediate_repeat [60; 64; 65; 60].
Proof.
  apply (single_band_display_is_ground_truth backend.key_to_adjustment 4 4
           "do re mi fa" "C" counting_source 0%nat [60; 62; 64; 65]
           "60_64_65_60" [60; 64; 65; 60] 8%nat).
  - lia.
  - vm_compute. reflexivity.
  - vm_compute. lia.
  - vm_compute. reflexivity.
  - simpl. lia.
  - vm_compute. reflexivity.
Defined.

Lemma display_string_determines_notes_witness :
  Py.join "_" (Py.str <$> [62; 66]) = "62_66" ∧ [62; 66] = [62; 66].
Proof.
  split; [reflexivity |].
  apply (display_string_determines_notes [62; 66] [62; 66]);
    [discriminate | discriminate | reflexivity].
Defined.

(** ** Reading the notes back in [main] *)

Lemma str_starts_like_a_number (n : Z) : starts_like_a_number (Py.str n) = true.
Proof.
  unfold Py.str, NilZero.string_of_int, NilZero.string_of_uint.
  destruct n as [| p | p]; cbn [Z.to_int]; [reflexivity | | reflexivity].
  pose proof (Unsigned.to_uint_nonnil p) as Hnonnil.
  destruct (Pos.to_uint p); [done | reflexivity ..].
Qed.

Lemma number_is_no_syllable (n : Z) : solfege_to_midi !! Py.str n = None.
Proof.
  destruct (solfege_to_midi !! Py.str n) as [midi |] eqn:Hlookup;
    [| reflexivity].
  pose proof (str_starts_like_a_number n) as Hstart.
  unfold solfege_to_midi in Hlookup.
  apply elem_of_list_to_map_2 in Hlookup.
  repeat (apply elem_of_cons in Hlookup as [Hlookup | Hlookup];
          [injection Hlookup as Hname _; rewrite Hname in Hstart;
           discriminate Hstart |]).
  by apply elem_of_nil in Hlookup.
Qed.

(** The numbers of a returned string are looked up in the syllable table:
    for every non-empty display sequence this raises [KeyError]. *)
Lemma read_back_raises (display : list Z) :
  display ≠ [] →
  main.test_sequence_midi (Py.join "_" (Py.str <$> display)) = Raise KeyError.
Proof.
  intros Hne. unfold main.test_sequence_midi.
  rewrite split_display_string by exact Hne.
  destruct display as [| note rest]; [done |].
  cbn [fmap list_fmap Py.comprehension]. unfold Py.getitem at 1.
  rewrite number_is_no_syllable. reflexivity.
Qed.

(** X21. The call [main] makes (four notes of "do re mi fa sol la ti do", two
    octave bands, key C) returns for every random source, and the line that
    reads its notes back then raises [KeyError]. *)
Theorem main_raises_key_error (fuel : nat) (src : RandomSource) (pos : nat) :
  (4 ≤ fuel)%nat →
  ∃ midi_test_notes pre_octave_key_list pos',
    backend.generate_test_sequence fuel 4 "do re mi fa sol la ti do" 2 "C"
      src pos
    = Ok (midi_test_notes, pre_octave_key_list, pos')
    ∧ main.test_sequence_midi midi_test_notes = Raise KeyError.
Proof.
  intros Hfuel. unfold backend.generate_test_sequence.
  rewrite generate_test_sequence_of_notes.
  assert (Hvalid : Py.comprehension (Py.getitem solfege_to_midi)
                     (Py.split "do re mi fa sol la ti do")
                   = Ok [60; 62; 64; 65; 67; 69; 71; 60])
    by (vm_compute; reflexivity).
  assert (Hkey : backend.key_to_adjustment !! "C" = Some 0)
    by (vm_compute; reflexivity).
  assert (Htwo : Nat.le 2 (distinct_pitches [60; 62; 64; 65; 67; 69; 71; 60]))
    by (vm_compute; lia).
  destruct (generate_notes_cases backend.key_to_adjustment fuel 4
              "do re mi fa sol la ti do" 2 "C" src pos
              [60; 62; 64; 65; 67; 69; 71; 60] Hvalid 0
              (two_pitches_nonempty _ Htwo) (λ _, Htwo))
    as [(gt & bands & pos0 & Hgen & Hlen & Hblen & _) | (Hone & _)];
    [lia | exact Hkey | simpl; lia | | discriminate Hone].
  rewrite Hgen. eexists _, _, _. split; [reflexivity |].
  apply read_back_raises.
  intros Hnil. apply (f_equal length) in Hnil.
  rewrite length_zip_with in Hnil. cbn [length] in Hnil.
  change (Z.to_nat (Z.max 4 1)) with 4%nat in Hlen. lia.
Qed.

Lemma main_raises_key_error_witness :
  ∃ midi_test_notes pre_octave_key_list pos',
    backend.generate_test_sequence 4 4 "do re mi fa sol la ti do" 2 "C"
      top_source 0%nat
    = Ok (midi_test_notes, pre_octave_key_list, pos')
    ∧ main.test_sequence_midi midi_test_notes = Raise KeyError.
Proof. apply (main_raises_key_error 4 top_source 0%nat). lia. Defined.

(** ** The reference cadence *)

(** X22. The cadence of a key is the cadence of C moved by the key's offset, chord
    by chord and note by note. *)
Theorem cadence_transposes_with_key (table : gmap string Z) (key : string)
  (adjustment : Z) :
  table !! "C" = Some 0 →
  table !! key = Some adjustment →
  ∃ in_C,
    generate_reference_cadence table "C" = Ok in_C
    ∧ generate_reference_cadence table key
      = Ok {| dominant := transpose_chord adjustment (dominant in_C);
              tonic := transpose_chord adjustment (tonic in_C) |}.
Proof.
  intros HC Hkey.
  rewrite (cadence_of_offset table "C" 0 HC).
  rewrite (cadence_of_offset table key adjustment Hkey).
  eexists. split; [reflexivity |].
  cbn [dominant tonic transpose_chord].
  f_equal. f_equal; (f_equal; [f_equal |]); lia.
Qed.

Lemma cadence_transposes_with_key_witness :
  ∃ in_C,
    generate_reference_cadence backend.key_to_adjustment "C" = Ok in_C
    ∧ generate_reference_cadence backend.key_to_adjustment "Gb"
      = Ok {| dominant := transpose_chord (-6) (dominant in_C);
              tonic := transpose_chord (-6) (tonic in_C) |}.
Proof.
  apply (cadence_transposes_with_key backend.key_to_adjustment "Gb" (-6));
    vm_compute; reflexivity.
Defined.

(** X23. The cadence exists exactly for the keys of the table; for any other key
    the call raises [KeyError]. The key "A#" is such a key in [backend.py],
    where the table spells it "A3", and not in [EarTraining.py]. *)
Theorem cadence_needs_known_key (table : gmap string Z) (key : string) :
  ((∃ cadence, generate_reference_cadence table key = Ok cadence)
   ↔ is_Some (table !! key))
  ∧ (generate_reference_cadence table key = Raise KeyError
     ↔ table !! key = None)
  ∧ backend.generate_reference_cadence "A#" = Raise KeyError
  ∧ EarTraining.generate_reference_cadence "A#"
    = Ok {| dominant := (53, 57, 60); tonic := (58, 62, 65) |}.
Proof.
  split; [| split; [| split; vm_compute; reflexivity]].
  - destruct (table !! key) as [adjustment |] eqn:Hkey.
    + rewrite (cadence_of_offset table key adjustment Hkey).
      split; [intros _; eauto | intros _; eauto].
    + rewrite (cadence_of_unknown_key table key Hkey).
      split; [intros [cadence Heq]; discriminate Heq | intros [x Hx]; discriminate Hx].
  - destruct (table !! key) as [adjustment |] eqn:Hkey.
    + rewrite (cadence_of_offset table key adjustment Hkey).
      split; intros Heq; discriminate Heq.
    + rewrite (cadence_of_unknown_key table key Hkey). split; reflexivity.
Qed.

(** X24. With the table of either file every note of the cadence is a MIDI note
    number: the six notes lie between 49 and 73. *)
Theorem cadence_notes_range (key : string) (cadence : Cadence) :
  backend.generate_reference_cadence key = Ok cadence
  ∨ EarTraining.generate_reference_cadence key = Ok cadence →
  let '(d1, d2, d3) := dominant cadence in
  let '(t1, t2, t3) := tonic cadence in
  Forall (λ note, 49 ≤ note ≤ 73) [d1; d2; d3; t1; t2; t3].
Proof.
  intros Hcadence.
  assert (∃ adjustment, -6 ≤ adjustment ≤ 6
            ∧ cadence = {| dominant := (60 + adjustment - 5, 60 + adjustment - 1,
                                        60 + adjustment + 2);
                           tonic := (60 + adjustment, 60 + adjustment + 4,
                                     60 + adjustment + 7) |})
    as (adjustment & Hrange & ->).
  { destruct Hcadence as [H | H].
    - unfold backend.generate_reference_cadence in H.
      destruct (backend.key_to_adjustment !! key) as [adjustment |] eqn:Hkey.
      + rewrite (cadence_of_offset _ key adjustment Hkey) in H.
        injection H as <-. exists adjustment. split; [| reflexivity].
        unfold backend.key_to_adjustment in Hkey. table_entries Hkey; lia.
      + rewrite (cadence_of_unknown_key _ key Hkey) in H. discriminate H.
    - unfold EarTraining.generate_reference_cadence in H.
      destruct (EarTraining.key_to_adjustment !! key) as [adjustment |] eqn:Hkey.
      + rewrite (cadence_of_offset _ key adjustment Hkey) in H.
        injection H as <-. exists adjustment. split; [| reflexivity].
        unfold EarTraining.key_to_adjustment in Hkey. table_entries Hkey; lia.
      + rewrite (cadence_of_unknown_key _ key Hkey) in H. discriminate H. }
  cbn [dominant tonic]. repeat constructor; lia.
Qed.

Lemma cadence_notes_range_witness :
  Forall (λ note, 49 ≤ note ≤ 73) [49; 53; 56; 54; 58; 61].
Proof.
  apply (cadence_notes_range "Gb"
           {| dominant := (49, 53, 56); tonic := (54, 58, 61) |}).
  left. vm_compute. reflexivity.
Defined.

(** ** The front end: names to pitches *)

Lemma gui_solfege_to_midi_app (names1 names2 : list string) :
  EarTraining_GUI.solfege_to_midi (names1 ++ names2)
  = EarTraining_GUI.solfege_to_midi names1
    ++ EarTraining_GUI.solfege_to_midi names2.
Proof.
  induction names1 as [| name names1 IH]; [reflexivity |].
  cbn [app EarTraining_GUI.solfege_to_midi].
  destruct (EarTraining_GUI.solfege_map !! name); rewrite IH; reflexivity.
Qed.

(** X25. The front end's conversion never fails; a name it does not know (the
    empty text of a free entry, a lower-case syllable) is left out, so the
    pitches after it move one place to the left. *)
Theorem gui_conversion_drops_unknown_names (before after : list string)
  (name : string) :
  EarTraining_GUI.solfege_map !! name = None →
  EarTraining_GUI.solfege_to_midi (before ++ name :: after)
  = EarTraining_GUI.solfege_to_midi (before ++ after)
  ∧ (length (EarTraining_GUI.solfege_to_midi (before ++ name :: after))
     < length (before ++ name :: after))%nat.
Proof.
  intros Hunknown.
  assert (Hshort : ∀ names,
             (length (EarTraining_GUI.solfege_to_midi names) ≤ length names)%nat).
  { induction names as [| x names IH]; [reflexivity |].
    cbn [EarTraining_GUI.solfege_to_midi length].
    destruct (EarTraining_GUI.solfege_map !! x); cbn [length]; lia. }
  rewrite !gui_solfege_to_midi_app.
  cbn [EarTraining_GUI.solfege_to_midi]. rewrite Hunknown.
  split; [reflexivity |].
  rewrite !length_app. cbn [length].
  pose proof (Hshort before). pose proof (Hshort after). lia.
Qed.

Lemma gui_conversion_drops_unknown_names_witness :
  EarTraining_GUI.solfege_to_midi (["Do"] ++ "" :: ["Re"])
  = EarTraining_GUI.solfege_to_midi (["Do"] ++ ["Re"]).
Proof.
  apply (gui_conversion_drops_unknown_names ["Do"] ["Re"] "").
  vm_compute. reflexivity.
Defined.

Lemma button_pitch (button syllable : string) :
  EarTraining_GUI.solfege !! button = Some syllable →
  ∃ midi, EarTraining_GUI.solfege_map !! button = Some midi
          ∧ solfege_to_midi !! syllable = Some midi.
Proof.
  intros H. unfold EarTraining_GUI.solfege in H.
  table_entries H; eexists; split; vm_compute; reflexivity.
Qed.

(** X26. The front end and the back end agree on the pitches: for button texts
    and the syllables the front end sends for them, the front end's
    conversion of the texts gives the pitches the back end looks up for the
    syllables. *)
Theorem gui_pitches_agree_with_backend (buttons syllables : list string) :
  Forall2 (λ button syllable,
             EarTraining_GUI.solfege !! button = Some syllable)
    buttons syllables →
  Py.comprehension (Py.getitem solfege_to_midi) syllables
  = Ok (EarTraining_GUI.solfege_to_midi buttons).
Proof.
  induction 1 as [| button syllable buttons syllables Hpair _ IH];
    [reflexivity |].
  destruct (button_pitch button syllable Hpair) as (midi & Hgui & Hback).
  cbn [Py.comprehension EarTraining_GUI.solfege_to_midi].
  unfold Py.getitem at 1. rewrite Hback, Hgui. cbn [obind].
  rewrite IH. reflexivity.
Qed.

Lemma gui_pitches_agree_with_backend_witness :
  Py.comprehension (Py.getitem solfege_to_midi) ["sol"; "te"]
  = Ok (EarTraining_GUI.solfege_to_midi ["Sol"; "Te"]).
Proof.
  apply (gui_pitches_agree_with_backend ["Sol"; "Te"] ["sol"; "te"]).
  repeat constructor; vm_compute; reflexivity.
Defined.

(** ** The front end: the row of entries *)

Lemma update_input_first_free (note : string) (filled rest : list string) :
  Forall (λ entry, entry ≠ "") filled →
  EarTraining_GUI.update_input note (filled ++ "" :: rest)
  = filled ++ note :: rest.
Proof.
  induction 1 as [| entry filled Hentry _ IH].
  - cbn. rewrite append_empty_r. reflexivity.
  - cbn [app EarTraining_GUI.update_input].
    destruct (decide (entry = "")); [done |]. rewrite IH. reflexivity.
Qed.

Lemma clear_first_filled_skips (free : nat) (entry : string)
  (rest : list string) :
  entry ≠ "" →
  EarTraining_GUI.clear_first_filled (replicate free "" ++ entry :: rest)
  = replicate free "" ++ "" :: rest.
Proof.
  intros Hentry. induction free as [| free IH].
  - cbn. destruct (decide (entry = "")); [done | reflexivity].
  - cbn [replicate app EarTraining_GUI.clear_first_filled].
    destruct (decide ("" = "")); [| done]. rewrite IH. reflexivity.
Qed.

Lemma backspace_input_last_filled (filled : list string) (entry : string)
  (free : nat) :
  entry ≠ "" →
  EarTraining_GUI.backspace_input (filled ++ entry :: replicate free "")
  = filled ++ "" :: replicate free "".
Proof.
  intros Hentry. unfold EarTraining_GUI.backspace_input.
  rewrite reverse_app, reverse_cons, reverse_replicate, <- app_assoc.
  cbn [app]. rewrite clear_first_filled_skips by exact Hentry.
  rewrite reverse_app, reverse_cons, reverse_involutive, reverse_replicate.
  rewrite <- app_assoc. reflexivity.
Qed.

(** X27. Typing a note and pressing the back arrow restores the row: in a row
    filled from the left with a free entry, [update_input] writes the note
    into the first free entry, the row stays filled from the left, and
    [backspace_input] then clears that entry again. *)
Theorem update_then_backspace_restores (inputs : list string) (note : string) :
  packed inputs → "" ∈ inputs → note ≠ "" →
  packed (EarTraining_GUI.update_input note inputs)
  ∧ length (EarTraining_GUI.update_input note inputs) = length inputs
  ∧ EarTraining_GUI.backspace_input (EarTraining_GUI.update_input note inputs)
    = inputs.
Proof.
  intros (filled & free & -> & Hfilled) Hfree Hnote.
  destruct free as [| free].
  { rewrite app_nil_r in Hfree. rewrite Forall_forall in Hfilled.
    destruct (Hfilled "" Hfree). reflexivity. }
  cbn [replicate].
  rewrite update_input_first_free by exact Hfilled.
  split; [| split].
  - exists (filled ++ [note]), free. rewrite <- app_assoc.
    split; [reflexivity |].
    apply Forall_app_2; [exact Hfilled | by constructor].
  - rewrite !length_app. reflexivity.
  - apply backspace_input_last_filled, Hnote.
Qed.

Lemma update_then_backspace_restores_witness :
  EarTraining_GUI.backspace_input
    (EarTraining_GUI.update_input "Mi" ["Do"; "Re"; ""; ""])
  = ["Do"; "Re"; ""; ""].
Proof.
  apply (update_then_backspace_restores ["Do"; "Re"; ""; ""] "Mi").
  - exists ["Do"; "Re"], 2%nat. split; [reflexivity |].
    repeat constructor; discriminate.
  - set_solver.
  - discriminate.
Defined.

(** X28. At the ends of the row nothing happens: a note typed into a full row is
    dropped without a word, and the back arrow on an empty row leaves it
    empty. *)
Theorem entries_full_or_empty (inputs : list string) (note : string) :
  (Forall (λ entry, entry ≠ "") inputs →
   EarTraining_GUI.update_input note inputs = inputs)
  ∧ (Forall (λ entry, entry = "") inputs →
     EarTraining_GUI.backspace_input inputs = inputs).
Proof.
  split.
  - induction 1 as [| entry inputs Hentry _ IH]; [reflexivity |].
    cbn [EarTraining_GUI.update_input].
    destruct (decide (entry = "")); [done |]. rewrite IH. reflexivity.
  - intros Hempty.
    assert (Hclear : ∀ entries, Forall (λ entry, entry = "") entries →
               EarTraining_GUI.clear_first_filled entries = entries).
    { induction 1 as [| entry entries Hentry _ IH]; [reflexivity |].
      cbn [EarTraining_GUI.clear_first_filled].
      destruct (decide (entry = "")); [| done]. rewrite IH. reflexivity. }
    unfold EarTraining_GUI.backspace_input.
    rewrite Hclear, reverse_involutive; [reflexivity |].
    apply Forall_reverse, Hempty.
Qed.

Lemma entries_full_or_empty_witness :
  EarTraining_GUI.update_input "Ti" ["Do"; "Re"] = ["Do"; "Re"]
  ∧ EarTraining_GUI.backspace_input [""; ""] = [""; ""].
Proof.
  split.
  - apply (entries_full_or_empty ["Do"; "Re"] "Ti").
    repeat constructor; discriminate.
  - apply (entries_full_or_empty [""; ""] "Ti"). repeat constructor.
Defined.

(** ** Playing notes *)

Lemma perform_ok (event : MidiEvent) (w : Stage) :
  failure w (calls w) = None →
  perform event w
  = (Ok tt, {| performed := performed w ++ [event]; calls := S (calls w);
               failure := failure w |}).
Proof. intros H. unfold perform. rewrite H. reflexivity. Qed.

Lemma send_ok (kind : Z → Z → MidiEvent) (note : Z) (w : Stage) :
  0 ≤ note ≤ 127 →
  failure w (calls w) = None →
  send (Message kind note 64) w
  = (Ok tt, {| performed := performed w ++ [kind note 64];
               calls := S (calls w); failure := failure w |}).
Proof.
  intros Hnote Hquiet. unfold send, Message.
  destruct (decide (0 ≤ note ≤ 127)); [| done].
  destruct (decide (0 ≤ 64 ≤ 127)); [| lia].
  apply perform_ok, Hquiet.
Qed.

Lemma send_bad_note (kind : Z → Z → MidiEvent) (note : Z) (w : Stage) :
  ¬ 0 ≤ note ≤ 127 → send (Message kind note 64) w = (Raise ValueError, w).
Proof.
  intros Hnote. unfold send, Message.
  destruct (decide (0 ≤ note ≤ 127)); [done | reflexivity].
Qed.

Lemma sleep_ok (secs : float) (w : Stage) :
  sleep_check secs = None →
  failure w (calls w) = None →
  sleep secs w
  = (Ok tt, {| performed := performed w ++ [Sleep secs];
               calls := S (calls w); failure := failure w |}).
Proof.
  intros Hcheck Hquiet. unfold sleep. rewrite Hcheck.
  apply perform_ok, Hquiet.
Qed.

Lemma and_then_ok (first second : Play) (w w' : Stage) :
  first w = (Ok tt, w') → and_then first second w = second w'.
Proof. intros H. unfold and_then. rewrite H. reflexivity. Qed.

Lemma and_then_raise (first second : Play) (w w' : Stage) (e : Exn) :
  first w = (Raise e, w') → and_then first second w = (Raise e, w').
Proof. intros H. unfold and_then. rewrite H. reflexivity. Qed.

Lemma send_each_ok (kind : Z → Z → MidiEvent) (notes : list Z) :
  ∀ w,
    Forall (λ note, 0 ≤ note ≤ 127) notes →
    (∀ k, (k < length notes)%nat → failure w (calls w + k) = None) →
    for_each_note (λ note, send (Message kind note 64)) notes w
    = (Ok tt, {| performed := performed w ++ ((λ n, kind n 64) <$> notes);
                 calls := (calls w + length notes)%nat;
                 failure := failure w |}).
Proof.
  induction notes as [| note notes IH]; intros w Hnotes Hquiet.
  - cbn. rewrite app_nil_r, Nat.add_0_r. destruct w. reflexivity.
  - apply Forall_cons in Hnotes as [Hnote Hnotes].
    cbn [for_each_note].
    erewrite and_then_ok.
    2: { apply send_ok; [exact Hnote |].
         specialize (Hquiet 0%nat). rewrite Nat.add_0_r in Hquiet.
         apply Hquiet. cbn [length]. lia. }
    rewrite IH.
    + cbn [performed calls failure fmap list_fmap length].
      rewrite <- app_assoc. do 2 f_equal. lia.
    + exact Hnotes.
    + intros k Hk. cbn [calls failure].
      replace (S (calls w) + k)%nat with (calls w + S k)%nat by lia.
      apply Hquiet. cbn [length]. lia.
Qed.

Lemma play_each_ok (duration : float) (notes : list Z) :
  ∀ w,
    Forall (λ note, 0 ≤ note ≤ 127) notes →
    sleep_check duration = None →
    (∀ n, failure w n = None) →
    for_each_note
      (λ note,
         and_then (send (Message NoteOn note 64))
           (and_then (sleep duration) (send (Message NoteOff note 64))))
      notes w
    = (Ok tt,
       {| performed := performed w
                       ++ (notes ≫= λ note,
                             [NoteOn note 64; Sleep duration; NoteOff note 64]);
          calls := (calls w + 3 * length notes)%nat;
          failure := failure w |}).
Proof.
  induction notes as [| note notes IH]; intros w Hnotes Hcheck Hquiet.
  - cbn. rewrite app_nil_r, Nat.add_0_r. destruct w. reflexivity.
  - apply Forall_cons in Hnotes as [Hnote Hnotes].
    cbn [for_each_note].
    erewrite and_then_ok.
    2: { erewrite and_then_ok by (apply send_ok; [exact Hnote | apply Hquiet]).
         erewrite and_then_ok by (apply sleep_ok; [exact Hcheck | apply Hquiet]).
         apply send_ok; [exact Hnote | apply Hquiet]. }
    rewrite IH by assumption.
    cbn [performed calls failure length mbind list_bind app].
    rewrite <- !app_assoc. cbn [app]. do 2 f_equal. lia.
Qed.

Lemma play_chord_ok (notes : list Z) (duration : float) (w : Stage) :
  Forall (λ note, 0 ≤ note ≤ 127) notes →
  sleep_check duration = None →
  (∀ n, failure w n = None) →
  play_midi_notes notes duration true w
  = (Ok tt,
     {| performed := performed w
                     ++ ((λ n, NoteOn n 64) <$> notes)
                     ++ [Sleep duration]
                     ++ ((λ n, NoteOff n 64) <$> notes);
        calls := (calls w + (2 * length notes + 1))%nat;
        failure := failure w |}).
Proof.
  intros Hnotes Hcheck Hquiet. unfold play_midi_notes.
  erewrite and_then_ok by (apply send_each_ok; [exact Hnotes | intros; apply Hquiet]).
  erewrite and_then_ok by (apply sleep_ok; [exact Hcheck | apply Hquiet]).
  rewrite send_each_ok by (try exact Hnotes; intros; apply Hquiet).
  cbn [performed calls failure].
  rewrite <- !app_assoc. cbn [app]. do 2 f_equal. lia.
Qed.

Lemma play_single_ok (notes : list Z) (duration : float) (w : Stage) :
  Forall (λ note, 0 ≤ note ≤ 127) notes →
  sleep_check duration = None →
  (∀ n, failure w n = None) →
  play_midi_notes notes duration false w
  = (Ok tt,
     {| performed := performed w
                     ++ (notes ≫= λ n,
                           [NoteOn n 64; Sleep duration; NoteOff n 64]);
        calls := (calls w + 3 * length notes)%nat;
        failure := failure w |}).
Proof. intros. unfold play_midi_notes. by apply play_each_ok. Qed.



Lemma chord_on_off (note : Z) (notes : list Z) :
  times_on note ((λ n, NoteOn n 64) <$> notes)
  = times_off note ((λ n, NoteOff n 64) <$> notes)
  ∧ times_off note ((λ n, NoteOn n 64) <$> notes) = 0%nat
  ∧ times_on note ((λ n, NoteOff n 64) <$> notes) = 0%nat.
Proof.
  unfold times_on, times_off.
  induction notes as [| n notes (IH1 & IH2 & IH3)]; [done |].
  cbn [fmap list_fmap List.filter is_note_on is_note_off].
  destruct (bool_decide (n = note)); cbn [length]; auto.
Qed.




(** X30. An exception in the middle of a chord leaves the notes already
    switched on sounding. When the notes [before] have been switched on and
    the next note is not a MIDI note number, [play_midi_notes] raises
    [ValueError]; when they are the whole chord and the pause raises (the
    duration is rejected, or the sleep is interrupted), it raises that
    exception. In both cases the messages sent are the note-on messages of
    [before] and no note has been switched off. *)
Theorem interrupted_chord_keeps_sounding (before after : list Z) (bad : Z)
  (duration : float) (w : Stage) (e : Exn) :
  Forall (λ note, 0 ≤ note ≤ 127) before →
  (∀ k, (k < length before)%nat → failure w (calls w + k) = None) →
  (¬ 0 ≤ bad ≤ 127 →
   play_midi_notes (before ++ bad :: after) duration true w
   = (Raise ValueError,
      {| performed := performed w ++ ((λ n, NoteOn n 64) <$> before);
         calls := (calls w + length before)%nat; failure := failure w |}))
  ∧ (sleep_check duration = Some e
     ∨ (sleep_check duration = None
        ∧ failure w (calls w + length before) = Some e) →
     ∃ w',
       play_midi_notes before duration true w = (Raise e, w')
       ∧ performed w' = performed w ++ ((λ n, NoteOn n 64) <$> before))
  ∧ ∀ note, times_off note ((λ n, NoteOn n 64) <$> before) = 0%nat.
Proof.
  intros Hbefore Hquiet. split; [| split].
  - intros Hbad. unfold play_midi_notes.
    apply and_then_raise.
    assert (Hsplit : ∀ body (l1 l2 : list Z) w0 w1,
               for_each_note body l1 w0 = (Ok tt, w1) →
               for_each_note body (l1 ++ l2) w0 = for_each_note body l2 w1).
    { intros body l1. induction l1 as [| x l1 IH]; intros l2 w0 w1 Hrun.
      - cbn in Hrun. injection Hrun as <-. reflexivity.
      - cbn [app for_each_note] in *. unfold and_then in *.
        destruct (body x w0) as [[[] | e0 |] w2]; try discriminate Hrun.
        apply IH, Hrun. }
    rewrite (Hsplit _ _ _ _ _ (send_each_ok NoteOn before w Hbefore Hquiet)).
    cbn [for_each_note]. apply and_then_raise, send_bad_note, Hbad.
  - intros Hpause. unfold play_midi_notes.
    erewrite and_then_ok by (apply send_each_ok; assumption).
    unfold and_then, sleep.
    destruct Hpause as [Hcheck | [Hcheck Hfail]]; rewrite Hcheck.
    + eexists. split; reflexivity.
    + unfold perform. cbn [performed calls failure]. rewrite Hfail.
      eexists. split; reflexivity.
  - intros note. apply chord_on_off.
Qed.

Lemma interrupted_chord_keeps_sounding_witness :
  play_midi_notes ([60] ++ 128 :: []) 2%float true quiet_stage
  = (Raise ValueError,
     {| performed := [NoteOn 60 64]; calls := 1;
        failure := failure quiet_stage |})
  ∧ ∃ w',
      play_midi_notes [60] (-1)%float true quiet_stage = (Raise ValueError, w')
      ∧ performed w' = [NoteOn 60 64].
Proof.
  split.
  - refine (proj1 (interrupted_chord_keeps_sounding [60] [] 128 2%float
              quiet_stage ValueError _ _) _).
    + repeat constructor; lia.
    + intros k _. reflexivity.
    + lia.
  - refine (proj1 (proj2 (interrupted_chord_keeps_sounding [60] [] 128
              (-1)%float quiet_stage ValueError _ _)) _).
    + repeat constructor; lia.
    + intros k _. reflexivity.
    + left. vm_compute. reflexivity.
Defined.

(** [play_sequence] plays the reference chord, releases it, pauses, and then
    plays the test notes one at a time: with MIDI note numbers, accepted
    durations and no failing call, the events are, in this order, the chord
    switched on, its pause, the chord switched off, the pause between, and
    for each test note on, pause, off. *)
Lemma play_sequence_order (reference_chord test_sequence : list Z)
  (chord_duration space_between test_note_speed : float) (w : Stage) :
  Forall (λ note, 0 ≤ note ≤ 127) reference_chord →
  Forall (λ note, 0 ≤ note ≤ 127) test_sequence →
  sleep_check chord_duration = None →
  sleep_check space_between = None →
  sleep_check test_note_speed = None →
  (∀ n, failure w n = None) →
  play_sequence reference_chord test_sequence chord_duration space_between
    test_note_speed w
  = (Ok tt,
     {| performed :=
          performed w
          ++ ((λ n, NoteOn n 64) <$> reference_chord)
          ++ [Sleep chord_duration]
          ++ ((λ n, NoteOff n 64) <$> reference_chord)
          ++ [Sleep space_between]
          ++ (test_sequence ≫= λ n,
                [NoteOn n 64; Sleep test_note_speed; NoteOff n 64]);
        calls := (calls w + (2 * length reference_chord + 2
                             + 3 * length test_sequence))%nat;
        failure := failure w |}).
Proof.
  intros Href Htest Hchord Hspace Hspeed Hquiet. unfold play_sequence.
  erewrite and_then_ok by (apply play_chord_ok; assumption).
  erewrite and_then_ok by (apply sleep_ok; [exact Hspace | apply Hquiet]).
  rewrite play_single_ok by assumption.
  cbn [performed calls failure].
  rewrite <- !app_assoc. cbn [app]. do 2 f_equal. lia.
Qed.

Example play_sequence_in_D :
  play_sequence [57; 61] [62] 2%float 1%float 0.5%float quiet_stage
  = (Ok tt,
     {| performed := [NoteOn 57 64; NoteOn 61 64; Sleep 2%float;
                      NoteOff 57 64; NoteOff 61 64; Sleep 1%float;
                      NoteOn 62 64; Sleep 0.5%float; NoteOff 62 64];
        calls := 9; failure := failure quiet_stage |}).
Proof. vm_compute. reflexivity. Qed.
